(** * Shielded-asset core of the private tokenised bonds wallet

    A shallow embedding of [wallet/src/merkle.rs], [wallet/src/keys.rs],
    [wallet/src/notes.rs], [wallet/src/prover.rs] and of the [onboard],
    [buy], [trade], [redeem] and [info] commands of [wallet/src/main.rs].

    Field elements of [poseidon_rs::Fr] are integers in [0, FR_MODULUS).
    The cryptographic primitives the code takes from libraries (Poseidon,
    Keccak256, X25519, the Display of [Fr]) are the fields of the class
    [Primitives]; everything proved below holds for every instance.  Code
    that panics ([unwrap], [expect], out-of-range indexing) returns [None]. *)

From Stdlib Require Import ZArith List String Ascii Bool Lia.
From Stdlib Require Import Strings.Byte.
Import ListNotations.

Notation "'let?' x ':=' m 'in' k" :=
  (match m with Some x => k | None => None end)
  (at level 200, x ident, m at level 100, k at level 200).

(** ** Library primitives *)

(** BN254 scalar field, the field of [poseidon_rs::Fr]. *)
Definition FR_MODULUS : Z := Eval cbv in
  21888242871839275222246405745257275088548364400416034343698204186575808495617%Z.

Definition Fr := Z.

Class Primitives := {
  (** the Poseidon permutation-based sponge on an admissible input *)
  poseidon : list Fr -> Fr;
  (** Keccak256 of a byte string *)
  keccak256 : list byte -> list byte;
  (** its output is a [GenericArray<u8, U32>] *)
  keccak256_length : forall m, List.length (keccak256 m) = 32%nat;
  (** X25519 scalar multiplication [x25519 k u] (clamping of [k] inside) *)
  x25519 : list byte -> list byte -> list byte;
  (** [format!("{}", fr)] *)
  fr_display : Fr -> string
}.

(** [Poseidon::hash] (poseidon-rs): [Err] on an empty input or on more
    than 16 inputs, the hash otherwise. *)
Definition poseidon_hash `{Primitives} (inp : list Fr) : option Fr :=
  if (1 <=? List.length inp)%nat && (List.length inp <=? 16)%nat then Some (poseidon inp)
  else None.

(** ** FieldCodec: [u64::to_string] and [Fr::from_str] *)
Module FieldCodec.
Local Open Scope Z_scope.

Definition digit_char (d : Z) : ascii := ascii_of_nat (48 + Z.to_nat d).

(** Decimal digits, most significant first; [fuel] bounds the digit count. *)
Fixpoint decimal_digits (fuel : nat) (n : Z) : list Z :=
  match fuel with
  | O => [n]
  | S f => if n <? 10 then [n] else decimal_digits f (n / 10) ++ [n mod 10]
  end.

(** [u64::to_string]: a u64 has at most 20 decimal digits. *)
Definition u64_to_string (n : Z) : string :=
  string_of_list_ascii (map digit_char (decimal_digits 20 n)).

(** [char::to_digit(10)] *)
Definition to_digit (c : ascii) : option Z :=
  let k := nat_of_ascii c in
  if (48 <=? k)%nat && (k <=? 57)%nat then Some (Z.of_nat k - 48) else None.

(** The digit loop of [PrimeField::from_str] (ff): a leading zero is
    refused, every other digit is accumulated as [res * 10 + d] in the field. *)
Fixpoint from_str_loop (first_digit : bool) (res : Fr) (cs : list ascii) : option Fr :=
  match cs with
  | [] => Some res
  | c :: cs' =>
      match to_digit c with
      | None => None
      | Some d =>
          if first_digit && (d =? 0) then None
          else from_str_loop false ((res * 10 + d) mod FR_MODULUS) cs'
      end
  end.

(** [PrimeField::from_str]: empty is refused, ["0"] is zero. *)
Definition fr_from_str (s : string) : option Fr :=
  match list_ascii_of_string s with
  | [] => None
  | ["0"%char] => Some 0
  | cs => from_str_loop true 0 cs
  end.

(** [Fr::from_str(&n.to_string())] for a u64 [n]. *)
Definition fr_of_u64 (n : Z) : option Fr := fr_from_str (u64_to_string n).

Definition is_u64 (n : Z) : Prop := 0 <= n < 2 ^ 64.

End FieldCodec.
Import FieldCodec.

(** ** MerkleCommitmentTree ([merkle.rs]) *)
Module Merkle.

Inductive SiblingSide := Left | Right.

Record Node := { sibling : Fr; sibling_side : SiblingSide }.

Record MerkleTree := { levels : list (list Fr); root : Fr }.

Section Tree.
Context `{Primitives}.

(** [hash_leaf]: [expect] panics when the hash fails. *)
Definition hash_leaf (input : list Fr) : option Fr := poseidon_hash input.

(** One pass of the [for i in (0..len).step_by(2)] loop of
    [build_tree_levels]: the last node of an odd level is duplicated. *)
Fixpoint pair_level (current_tree : list Fr) : option (list Fr) :=
  match current_tree with
  | [] => Some []
  | [x] => let? h := hash_leaf [x; x] in Some [h]
  | x :: y :: rest =>
      let? h := hash_leaf [x; y] in
      let? accum := pair_level rest in
      Some (h :: accum)
  end.

(** The [while current_tree.len() > 1] loop; the levels from
    [current_tree] upwards.  [fuel] is the leaf count, which bounds the
    number of rounds (each round at least halves the level). *)
Fixpoint build_loop (fuel : nat) (current_tree : list Fr) : option (list (list Fr)) :=
  if (List.length current_tree <=? 1)%nat then Some [current_tree]
  else
    match fuel with
    | O => None
    | S f =>
        let? accum := pair_level current_tree in
        let? rest := build_loop f accum in
        Some (current_tree :: rest)
    end.

Fixpoint map_opt {A B} (f : A -> option B) (l : list A) : option (list B) :=
  match l with
  | [] => Some []
  | a :: l' => let? b := f a in let? bs := map_opt f l' in Some (b :: bs)
  end.

Definition build_tree_levels (leaves : list Fr) : option (list (list Fr)) :=
  let? current_tree := map_opt (fun c => hash_leaf [c]) leaves in
  build_loop (List.length leaves) current_tree.

(** [Vec::last] *)
Fixpoint last_opt {A} (l : list A) : option A :=
  match l with
  | [] => None
  | [a] => Some a
  | _ :: l' => last_opt l'
  end.

(** [MerkleTree::new]: [levels.last().unwrap().first().unwrap()]. *)
Definition new (leaves : list Fr) : option MerkleTree :=
  let? lv := build_tree_levels leaves in
  let? top := last_opt lv in
  let? r := hd_error top in
  Some {| levels := lv; root := r |}.

(** One iteration of the loop of [generate_proof] at one level. *)
Definition proof_step (level : list Fr) (current_index : nat) : option Node :=
  let siblings_index :=
    if Nat.even current_index then (current_index + 1)%nat
    else (current_index - 1)%nat in
  if (siblings_index <? List.length level)%nat then
    let? s := nth_error level siblings_index in
    Some {| sibling := s;
            sibling_side := if Nat.even current_index then Right else Left |}
  else
    let? s := nth_error level current_index in
    Some {| sibling := s; sibling_side := Right |}.

(** [for level in 0..levels.len() - 1]: every level but the top one. *)
Fixpoint proof_loop (lv : list (list Fr)) (current_index : nat) : option (list Node) :=
  match lv with
  | [] => Some []
  | level :: rest =>
      match rest with
      | [] => Some []
      | _ :: _ =>
          let? node := proof_step level current_index in
          let? proof := proof_loop rest (current_index / 2) in
          Some (node :: proof)
      end
  end.

(** [generate_proof]; [levels.len() - 1] underflows on no level. *)
Definition generate_proof (t : MerkleTree) (index : nat) : option (list Node) :=
  match levels t with
  | [] => None
  | _ => proof_loop (levels t) index
  end.

Fixpoint fold_proof (current_hash : Fr) (proof : list Node) : option Fr :=
  match proof with
  | [] => Some current_hash
  | node :: proof' =>
      let? h := match sibling_side node with
                | Right => hash_leaf [current_hash; sibling node]
                | Left => hash_leaf [sibling node; current_hash]
                end in
      fold_proof h proof'
  end.

(** [verify_proof]: hashes the leaf slice, folds the proof, compares. *)
Definition verify_proof (t : MerkleTree) (leaf_value : list Fr) (proof : list Node) : option bool :=
  let? current_hash := hash_leaf leaf_value in
  let? h := fold_proof current_hash proof in
  Some (Z.eqb h (root t)).

(** [tree_levels cur lv]: [lv] are the levels produced by the [while] loop
    of [build_tree_levels] from the level [cur] (used in the proofs). *)
Inductive tree_levels : list Fr -> list (list Fr) -> Prop :=
| TL_top cur : (List.length cur <= 1)%nat -> tree_levels cur [cur]
| TL_step cur next rest :
    (1 < List.length cur)%nat -> pair_level cur = Some next ->
    tree_levels next rest -> tree_levels cur (cur :: rest).

End Tree.
End Merkle.

(** ** ShieldedKeyHierarchy ([keys.rs]) *)
Module Keys.

(** [ShieldedKeys]; byte arrays as byte lists. *)
Record ShieldedKeys := {
  seed : list byte;
  private_spending_key_hex : string;
  public_spending_key_hex : string;
  private_viewing_key : list byte;
  public_viewing_key : list byte
}.

(** The error of the spec's taxonomy for malformed key bytes. *)
Inductive KeyError := KeyFormatError.

Section KeyHierarchy.
Context `{Primitives}.

(** [b"spending_key"] *)
Definition spending_key_tag : list byte := list_byte_of_string "spending_key".

(** [u64::from_le_bytes] *)
Fixpoint u64_from_le_bytes (bs : list byte) : Z :=
  match bs with
  | [] => 0%Z
  | b :: bs' => (Z.of_N (Byte.to_N b) + 256 * u64_from_le_bytes bs')%Z
  end.

(** [&derived[..n]]: panics when [derived] is shorter than [n]. *)
Definition slice_to (n : nat) (l : list byte) : option (list byte) :=
  if (n <=? List.length l)%nat then Some (firstn n l) else None.

(** [bytes.copy_from_slice(src)] into [[0u8; 8]]: panics on a length mismatch. *)
Definition copy_from_slice8 (src : list byte) : option (list byte) :=
  if (List.length src =? 8)%nat then Some src else None.

(** [derive_spending_key]: Keccak256 of [seed ++ b"spending_key"], first 8
    bytes read as a little-endian u64, then [Fr::from_str(&num.to_string())]. *)
Definition derive_spending_key (seed : list byte) : option Fr :=
  let derived := keccak256 (seed ++ spending_key_tag) in
  let? prefix := slice_to 8 derived in
  let? bytes := copy_from_slice8 prefix in
  let num := u64_from_le_bytes bytes in
  fr_from_str (u64_to_string num).

(** [StaticSecret::from([u8; 32])] keeps the 32 bytes and [as_bytes]
    returns them (x25519-dalek 2; clamping happens inside [x25519]). *)
Definition static_secret_from (bytes : list byte) : list byte := bytes.

Definition X25519_BASEPOINT : list byte := x09 :: repeat x00 31.

(** [PublicKey::from(&StaticSecret)] *)
Definition public_key_of_secret (secret : list byte) : list byte :=
  x25519 secret X25519_BASEPOINT.

(** [derive_public_viewing_key] *)
Definition derive_public_viewing_key (seed : list byte) : list byte * list byte :=
  let viewing_secret := static_secret_from seed in
  let viewing_public := public_key_of_secret viewing_secret in
  (viewing_secret, viewing_public).

(** [from_seed] *)
Definition from_seed (seed : list byte) : option ShieldedKeys :=
  let? private_spending_key := derive_spending_key seed in
  let private_spending_key_hex := fr_display private_spending_key in
  let? public_spending_key := poseidon_hash [private_spending_key] in
  let public_spending_key_hex := fr_display public_spending_key in
  let (private_viewing_key, public_viewing_key) := derive_public_viewing_key seed in
  Some {| seed := seed;
          private_spending_key_hex := private_spending_key_hex;
          public_spending_key_hex := public_spending_key_hex;
          private_viewing_key := private_viewing_key;
          public_viewing_key := public_viewing_key |}.

(** [get_private_spending_key]: parses the stored string. *)
Definition get_private_spending_key (k : ShieldedKeys) : option Fr :=
  fr_from_str (private_spending_key_hex k).

(** [get_private_viewing_key]: [StaticSecret::from(self.seed)]. *)
Definition get_private_viewing_key (k : ShieldedKeys) : list byte :=
  static_secret_from (seed k).

(** [sign_nullifier] *)
Definition sign_nullifier (k : ShieldedKeys) (salt : Z) : option Fr :=
  let? f_salt := fr_from_str (u64_to_string salt) in
  let? private_key := get_private_spending_key k in
  poseidon_hash [f_salt; private_key].

(** [PublicKey::from([u8; 32])] wraps the bytes, it validates nothing. *)
Definition public_key_from_bytes (bytes : list byte) : list byte := bytes.

(** [StaticSecret::diffie_hellman] *)
Definition diffie_hellman (secret their_public : list byte) : list byte :=
  x25519 secret their_public.

(** [ecdh] *)
Definition ecdh (k : ShieldedKeys) (their_pubkey : list byte) : list byte :=
  let other_party_public_key := public_key_from_bytes their_pubkey in
  let private_viewing := get_private_viewing_key k in
  diffie_hellman private_viewing other_party_public_key.

(** The outcome of [ecdh] in the spec's error taxonomy: the Rust function
    returns [[u8; 32]], it has no error channel. *)
Definition ecdh_result (k : ShieldedKeys) (their_pubkey : list byte) : list byte + KeyError :=
  inl (ecdh k their_pubkey).

(** [get_public_spending_key]: parses the stored string. *)
Definition get_public_spending_key (k : ShieldedKeys) : option Fr :=
  fr_from_str (public_spending_key_hex k).

(** [public_spending_key] *)
Definition public_spending_key (k : ShieldedKeys) : option Fr :=
  get_public_spending_key k.

End KeyHierarchy.

(** The all-zero u-coordinate: the X25519 encoding of the point of order 2,
    a small-order (non-contributory) counterparty key. *)
Definition zero_point : list byte := repeat x00 32.

End Keys.

(** ** NoteCommitmentScheme ([notes.rs]) *)
Module Notes.

(** [Note<F>] *)
Record Note (F : Type) := {
  value : F;
  salt : F;
  owner : F;
  asset_id : F;
  maturity_date : F
}.
Arguments value {F}. Arguments salt {F}. Arguments owner {F}.
Arguments asset_id {F}. Arguments maturity_date {F}.

(** The [ToString] bound of [impl<F: ToString> Note<F>]. *)
Class ToString (F : Type) := to_string : F -> string.

(** [u64] (as a [Z] in [0, 2^64)) prints in decimal. *)
#[export] Instance u64_ToString : ToString Z := u64_to_string.

Section NoteScheme.
Context `{Primitives} {F : Type} `{ToString F}.

(** [Note::commit] *)
Definition commit (n : Note F) : option Fr :=
  let? f_val := fr_from_str (to_string (value n)) in
  let? f_owner := fr_from_str (to_string (owner n)) in
  let? f_salt := fr_from_str (to_string (salt n)) in
  let? f_asset := fr_from_str (to_string (asset_id n)) in
  let? f_maturity_date := fr_from_str (to_string (maturity_date n)) in
  poseidon_hash [f_val; f_salt; f_owner; f_asset; f_maturity_date].

(** [Note::nullifer] *)
Definition nullifer (n : Note F) (private_key : Fr) : option Fr :=
  let? f_salt := fr_from_str (to_string (salt n)) in
  poseidon_hash [f_salt; private_key].

End NoteScheme.
End Notes.

(** ** JoinSplitWitnessBuilder and the [buy] command ([main.rs]) *)
Module JoinSplit.
Import Notes.

(** Modelled from the spec: [CircuitNote] of [prover.rs], which is not in
    the sources; the note of §3 with u64 value, salt, asset and maturity and
    a field-element owner. *)
Record CircuitNote := {
  cvalue : Z;
  csalt : Z;
  cowner : Fr;
  casset_id : Z;
  cmaturity_date : Z
}.

(** Modelled from the spec: [CircuitNote::commitment], the hash of the five
    fields in the order (value, salt, owner, asset, maturity). *)
Definition commitment `{Primitives} (n : CircuitNote) : Fr :=
  poseidon [cvalue n; csalt n; cowner n; casset_id n; cmaturity_date n].

(** Modelled from the spec: the witness bundle of §3; [P] is the type of
    the Merkle paths handed in by the caller. *)
Record JoinSplitWitness (P : Type) := {
  merkle_root : Fr;
  input1 : CircuitNote * P * Fr;
  input2 : CircuitNote * P * Fr;
  output1 : CircuitNote * Fr;
  output2 : CircuitNote * Fr;
  spender_secret : Fr
}.
Arguments merkle_root {P}. Arguments input1 {P}. Arguments input2 {P}.
Arguments output1 {P}. Arguments output2 {P}. Arguments spender_secret {P}.

Inductive WitnessError := ValueConservationError.

(** Modelled from the spec: [build_joinsplit_witness] of [prover.rs], which
    is not in the sources (§4.4, step 4): value conservation is checked and
    a violation is reported as [ValueConservationError], otherwise the
    bundle is emitted as given. *)
Definition build_joinsplit_witness {P : Type} (root : Fr)
    (input_note : CircuitNote) (input_path : P) (input_nullifier : Fr)
    (dummy_note : CircuitNote) (dummy_path : P) (dummy_nullifier : Fr)
    (outputs : CircuitNote * CircuitNote) (commitments : Fr * Fr)
    (private_key : Fr) : JoinSplitWitness P + WitnessError :=
  if (cvalue input_note + cvalue dummy_note =?
      cvalue (fst outputs) + cvalue (snd outputs))%Z
  then inl {| merkle_root := root;
              input1 := (input_note, input_path, input_nullifier);
              input2 := (dummy_note, dummy_path, dummy_nullifier);
              output1 := (fst outputs, fst commitments);
              output2 := (snd outputs, snd commitments);
              spender_secret := private_key |}
  else inr ValueConservationError.

(** Modelled from the spec: the fields of a stored [Bond] ([utils.rs], not
    in the sources) that [buy] reads. *)
Record Bond := {
  bond_value : Z;
  bond_salt : Z;
  bond_asset_id : Z;
  bond_maturity_date : Z
}.

(** u64 subtraction; an underflow panics. *)
Definition u64_sub (a b : Z) : option Z :=
  if (a <? b)%Z then None else Some (a - b)%Z.

(** The note construction of [buy] (main.rs, steps 4 to 8): [None] is the
    early return of the guard [buy_value >= source_bond.value]; the tree
    lookups and proofs are the caller's [input_path] and [dummy_path]. *)
Definition buy_joinsplit `{Primitives} {P : Type} (buy_value : Z) (source_bond : Bond)
    (issuer_owner buyer_owner : Fr) (buyer_salt change_salt : Z)
    (root : Fr) (input_path dummy_path : P)
    (input_nullifier dummy_nullifier private_key : Fr)
    : option (JoinSplitWitness P + WitnessError) :=
  if (buy_value >=? bond_value source_bond)%Z then None
  else
    let? change_value := u64_sub (bond_value source_bond) buy_value in
    let input_note := {| cvalue := bond_value source_bond; csalt := bond_salt source_bond;
                         cowner := issuer_owner; casset_id := bond_asset_id source_bond;
                         cmaturity_date := bond_maturity_date source_bond |} in
    let buyer_note := {| cvalue := buy_value; csalt := buyer_salt;
                         cowner := buyer_owner; casset_id := bond_asset_id source_bond;
                         cmaturity_date := bond_maturity_date source_bond |} in
    let change_note := {| cvalue := change_value; csalt := change_salt;
                          cowner := issuer_owner; casset_id := bond_asset_id source_bond;
                          cmaturity_date := bond_maturity_date source_bond |} in
    let dummy_note := {| cvalue := 0; csalt := 0;
                         cowner := issuer_owner; casset_id := bond_asset_id source_bond;
                         cmaturity_date := bond_maturity_date source_bond |} in
    Some (build_joinsplit_witness root input_note input_path input_nullifier
            dummy_note dummy_path dummy_nullifier
            (buyer_note, change_note) (commitment buyer_note, commitment change_note)
            private_key).

End JoinSplit.

(** ** A concrete instance of the primitives, to run the definitions *)
Module Demo.

Definition demo_poseidon (l : list Fr) : Fr :=
  fold_left (fun a x => (a * 7 + x + 1) mod FR_MODULUS)%Z l 3%Z.

Definition demo_keccak (m : list byte) : list byte := firstn 32 (m ++ repeat x00 32).

Definition demo_x25519 (k u : list byte) : list byte := firstn 32 (k ++ u).

Lemma demo_keccak_length (m : list byte) : List.length (demo_keccak m) = 32%nat.
Proof.
  unfold demo_keccak. rewrite length_firstn, length_app, repeat_length. lia.
Qed.

#[export] Instance demo_primitives : Primitives := {|
  poseidon := demo_poseidon;
  keccak256 := demo_keccak;
  keccak256_length := demo_keccak_length;
  x25519 := demo_x25519;
  fr_display := u64_to_string
|}.

Definition demo_seed : list byte := repeat x00 31 ++ [x40].

End Demo.

(** ** The [onboard], [trade], [redeem] and [info] commands ([main.rs]) *)
Module Commands.
Import JoinSplit.

(** The fields of a stored [Bond] as [main.rs] fills them (the struct is
    declared in [utils.rs], which is not in the sources). *)
Record StoredBond := {
  commitment : string;
  nullifier : string;
  value : Z;
  salt : Z;
  owner : string;
  asset_id : Z;
  maturity_date : Z;
  created_at : string
}.

(** [str::is_char_boundary] on the UTF-8 bytes of a [String]. *)
Definition is_char_boundary (s : string) (index : nat) : bool :=
  if (index =? String.length s)%nat then true
  else match String.get index s with
       | None => false
       | Some c =>
           let b := nat_of_ascii c in
           negb ((128 <=? b) && (b <? 192))%nat
       end.

(** [&s[..index]]: panics unless [index] is a char boundary of [s]. *)
Definition str_prefix (s : string) (index : nat) : option string :=
  if is_char_boundary s index then Some (substring 0 index s) else None.

(** The early returns of [trade] after both bonds are loaded. *)
Inductive TradeOutcome :=
| TradeAMatured
| TradeBMatured
| TradeIdenticalNullifiers
| TradeValid.

(** [trade]; [now] is [Utc::now().timestamp() as u64].  Both commitments
    are printed through [&commitment[..12]] before the checks. *)
Definition trade (now : Z) (bond_a bond_b : StoredBond) : option TradeOutcome :=
  let? shown_a := str_prefix (commitment bond_a) 12 in
  let? shown_b := str_prefix (commitment bond_b) 12 in
  if (now >=? maturity_date bond_a)%Z then Some TradeAMatured
  else if (now >=? maturity_date bond_b)%Z then Some TradeBMatured
  else if String.eqb (nullifier bond_a) (nullifier bond_b) then Some TradeIdenticalNullifiers
  else Some TradeValid.

Inductive RedeemOutcome :=
| RedeemTooEarly (days_left : Z)
| RedeemReady.

(** [redeem] after the bond is loaded. *)
Definition redeem (now : Z) (bond : StoredBond) : option RedeemOutcome :=
  let? shown := str_prefix (commitment bond) 12 in
  if (now <? maturity_date bond)%Z then
    let? diff := u64_sub (maturity_date bond) now in
    Some (RedeemTooEarly (diff / 86400))
  else Some RedeemReady.

Inductive BondStatus :=
| Matured
| DaysRemaining (days : Z).

(** The status line of [info]. *)
Definition info_status (now : Z) (bond : StoredBond) : option BondStatus :=
  if (now >=? maturity_date bond)%Z then Some Matured
  else
    let? diff := u64_sub (maturity_date bond) now in
    Some (DaysRemaining (diff / 86400)).

(** The constants of [onboard]. *)
Definition global_value : Z := 100000000.
Definition onboard_maturity_date : Z := 1893456000.

(** [onboard]: the global note and the dummy note added to the tree. *)
Definition onboard_global_note (owner_fr : Fr) (salt : Z) : CircuitNote :=
  {| cvalue := global_value; csalt := salt; cowner := owner_fr;
     casset_id := 1; cmaturity_date := onboard_maturity_date |}.

Definition onboard_dummy_note (owner_fr : Fr) : CircuitNote :=
  {| cvalue := 0; csalt := 0; cowner := owner_fr;
     casset_id := 1; cmaturity_date := onboard_maturity_date |}.

(** The global note saved by [onboard], as the fields [buy] reads. *)
Definition onboard_bond (salt : Z) : Bond :=
  {| bond_value := global_value; bond_salt := salt;
     bond_asset_id := 1; bond_maturity_date := onboard_maturity_date |}.

(** The change bond saved by [buy] (step 12), as the fields [buy] reads. *)
Definition buy_change_bond (buy_value : Z) (source_bond : Bond) (change_salt : Z) : option Bond :=
  if (buy_value >=? bond_value source_bond)%Z then None
  else
    let? change_value := u64_sub (bond_value source_bond) buy_value in
    Some {| bond_value := change_value; bond_salt := change_salt;
            bond_asset_id := bond_asset_id source_bond;
            bond_maturity_date := bond_maturity_date source_bond |}.

(** [issuer_bond sold b]: [b] is the issuer's bond after [onboard] and a
    sequence of [buy] commands, each spending the previous change bond;
    [sold] is the total value bought. *)
Inductive issuer_bond : Z -> Bond -> Prop :=
| IB_onboard salt : issuer_bond 0 (onboard_bond salt)
| IB_buy sold b buy_value change_salt b' :
    is_u64 buy_value -> issuer_bond sold b ->
    buy_change_bond buy_value b change_salt = Some b' ->
    issuer_bond (sold + buy_value)%Z b'.

End Commands.

(** ** Proof generation ([prover.rs]) *)
Module Prover.
Local Open Scope string_scope.

(** The parts of [std::process::Output] the code reads. *)
Record Output := { status_success : bool; stderr : string }.

Record Command := { program : string; args : list string; current_dir : string }.

Inductive Result := Ok (s : string) | Err (s : string).

Definition nargo_execute (circuit_dir witness_name : string) : Command :=
  {| program := "nargo"; args := ["execute"; witness_name]; current_dir := circuit_dir |}.

Definition bb_prove (circuit_dir witness_name : string) : Command :=
  {| program := "bb";
     args := ["prove"; "-b"; "./target/" ++ witness_name ++ ".json";
              "-w"; "./target/" ++ witness_name; "-o"; "./target";
              "--oracle_hash"; "keccak"];
     current_dir := circuit_dir |}.

(** [generate_proof]: [run] is [Command::output] ([inr] carries the spawn
    error's message, stderr is taken after [from_utf8_lossy]); the commands
    launched are returned with the result. *)
Definition generate_proof (run : Command -> Output + string)
    (circuit_dir witness_name : string) : list Command * Result :=
  let nargo := nargo_execute circuit_dir witness_name in
  match run nargo with
  | inr e => ([nargo], Err ("Failed to run nargo: " ++ e))
  | inl output =>
      if negb (status_success output) then
        ([nargo], Err ("nargo execute failed: " ++ stderr output))
      else
        let bb := bb_prove circuit_dir witness_name in
        match run bb with
        | inr e => ([nargo; bb], Err ("Failed to run bb prove: " ++ e))
        | inl bb_output =>
            if negb (status_success bb_output) then
              ([nargo; bb], Err ("bb prove failed: " ++ stderr bb_output))
            else ([nargo; bb], Ok (circuit_dir ++ "/target/proof"))
        end
  end.

End Prover.

(** ** A collision-free instance of the hash, to run the definitions *)
Module DemoInjective.

(** Self-delimiting binary code of a positive, then [k]. *)
Fixpoint enc_pos (q k : positive) : positive :=
  match q with
  | xH => xO k
  | xO q' => xI (xO (enc_pos q' k))
  | xI q' => xI (xI (enc_pos q' k))
  end.

Definition pos_of_Z (z : Z) : positive :=
  match z with Z0 => xH | Zpos q => xO q | Zneg q => xI q end.

Fixpoint enc_list (l : list Z) : positive :=
  match l with
  | [] => xH
  | z :: l' => xI (enc_pos (pos_of_Z z) (enc_list l'))
  end.

Definition inj_poseidon (l : list Fr) : Fr := Zpos (enc_list l).

#[export] Instance injective_primitives : Primitives := {|
  poseidon := inj_poseidon;
  keccak256 := Demo.demo_keccak;
  keccak256_length := Demo.demo_keccak_length;
  x25519 := Demo.demo_x25519;
  fr_display := u64_to_string
|}.

End DemoInjective.

(** * Properties *)

(** ** FieldCodec *)
Module FieldCodecFacts.
Local Open Scope Z_scope.

Arguments digit_char : simpl never.
Arguments to_digit : simpl never.

Definition digits_value (ds : list Z) : Z := fold_left (fun a d => a * 10 + d) ds 0.

Lemma FR_MODULUS_pos : 0 < FR_MODULUS.
Proof. unfold FR_MODULUS; lia. Qed.

Lemma u64_lt_modulus : 2 ^ 64 < FR_MODULUS.
Proof. unfold FR_MODULUS; vm_compute; reflexivity. Qed.

Lemma decimal_digits_spec (fuel : nat) (n : Z) :
  0 <= n < 10 ^ Z.of_nat (S fuel) ->
  let ds := decimal_digits fuel n in
  ds <> [] /\ Forall (fun d => 0 <= d < 10) ds /\ digits_value ds = n /\
  (0 < n -> hd 0 ds <> 0).
Proof.
  revert n; induction fuel as [|f IH]; intros n Hn; simpl.
  - rewrite Z.pow_1_r in Hn. unfold digits_value; simpl.
    repeat split; [congruence | constructor; [lia | constructor] | lia].
  - destruct (n <? 10) eqn:E.
    + apply Z.ltb_lt in E. unfold digits_value; simpl.
      repeat split; [congruence | constructor; [lia | constructor] | lia].
    + apply Z.ltb_ge in E.
      assert (Hq : 0 <= n / 10 < 10 ^ Z.of_nat (S f)).
      { split; [apply Z.div_pos; lia|].
        apply Z.div_lt_upper_bound; [lia|].
        replace (10 * 10 ^ Z.of_nat (S f)) with (10 ^ Z.of_nat (S (S f))); [lia|].
        rewrite (Nat2Z.inj_succ (S f)), Z.pow_succ_r; lia. }
      destruct (IH (n / 10) Hq) as (Hne & Hall & Hval & Hhd).
      repeat split.
      * destruct (decimal_digits f (n / 10)); [congruence | discriminate].
      * apply Forall_app; split; [exact Hall|].
        constructor; [apply Z.mod_pos_bound; lia | constructor].
      * unfold digits_value in *. rewrite fold_left_app, Hval; simpl.
        pose proof (Z.div_mod n 10); lia.
      * intros _. destruct (decimal_digits f (n / 10)) as [|d ds]; [congruence|].
        simpl in *. apply Hhd.
        assert (1 <= n / 10) by (apply Z.div_le_lower_bound; lia). lia.
Qed.

Lemma to_digit_char (d : Z) : 0 <= d < 10 -> to_digit (digit_char d) = Some d.
Proof.
  intros Hd.
  assert (d = 0 \/ d = 1 \/ d = 2 \/ d = 3 \/ d = 4 \/ d = 5 \/ d = 6 \/
          d = 7 \/ d = 8 \/ d = 9) as Hc by lia.
  repeat destruct Hc as [-> | Hc]; try reflexivity; subst; reflexivity.
Qed.

Lemma digit_char_nonzero (d : Z) : 0 < d < 10 -> digit_char d <> "0"%char.
Proof.
  intros Hd.
  assert (d = 1 \/ d = 2 \/ d = 3 \/ d = 4 \/ d = 5 \/ d = 6 \/
          d = 7 \/ d = 8 \/ d = 9) as Hc by lia.
  repeat destruct Hc as [-> | Hc]; try discriminate; subst; discriminate.
Qed.

Lemma from_str_loop_digits (ds : list Z) (res : Z) :
  Forall (fun d => 0 <= d < 10) ds ->
  from_str_loop false res (map digit_char ds) =
  Some (fold_left (fun a d => (a * 10 + d) mod FR_MODULUS) ds res).
Proof.
  revert res; induction ds as [|d ds IH]; intros res Hall; [reflexivity|].
  inversion Hall as [|? ? Hd Hall']; subst.
  cbn [map from_str_loop]. rewrite to_digit_char by exact Hd.
  cbn [andb fold_left]. apply IH; exact Hall'.
Qed.

Lemma fold_mod (ds : list Z) (r : Z) :
  fold_left (fun a d => (a * 10 + d) mod FR_MODULUS) ds (r mod FR_MODULUS) =
  (fold_left (fun a d => a * 10 + d) ds r) mod FR_MODULUS.
Proof.
  pose proof FR_MODULUS_pos as Hp.
  revert r; induction ds as [|d ds IH]; intros r; simpl; [reflexivity|].
  rewrite <- IH. f_equal.
  rewrite <- Z.add_mod_idemp_l by lia. rewrite Z.mul_mod_idemp_l by lia.
  rewrite Z.add_mod_idemp_l by lia. reflexivity.
Qed.

Lemma fr_from_str_nonzero_string (cs : list ascii) :
  cs <> [] -> cs <> ["0"%char] ->
  fr_from_str (string_of_list_ascii cs) = from_str_loop true 0 cs.
Proof.
  intros H1 H2. unfold fr_from_str. rewrite list_ascii_of_string_of_list_ascii.
  destruct cs as [|c cs]; [congruence|].
  destruct c as [[] [] [] [] [] [] [] []]; destruct cs; try reflexivity; congruence.
Qed.

(** [Fr::from_str(&n.to_string())] never fails and reduces [n] into the field. *)
Lemma fr_of_decimal (n : Z) :
  0 <= n < 10 ^ 21 -> fr_of_u64 n = Some (n mod FR_MODULUS).
Proof.
  intros Hn.
  destruct (decimal_digits_spec 20 n) as (Hne & Hall & Hval & Hhd); [exact Hn|].
  unfold fr_of_u64, u64_to_string.
  destruct (Z.eq_dec n 0) as [-> | Hn0].
  { reflexivity. }
  assert (Hpos : 0 < n) by lia. specialize (Hhd Hpos).
  destruct (decimal_digits 20 n) as [|d ds] eqn:E; [congruence|].
  cbn [hd] in Hhd. apply Forall_cons_iff in Hall as [Hd Hall'].
  assert (Hl : from_str_loop true 0 (map digit_char (d :: ds)) = Some (n mod FR_MODULUS)).
  { cbn [map from_str_loop]. rewrite to_digit_char by exact Hd.
    replace (d =? 0) with false by (symmetry; apply Z.eqb_neq; exact Hhd).
    cbn [andb]. rewrite from_str_loop_digits by exact Hall'.
    rewrite fold_mod. rewrite <- Hval. reflexivity. }
  rewrite <- Hl. apply fr_from_str_nonzero_string; [discriminate|].
  destruct ds as [|d' ds']; [|discriminate].
  cbn [map]. pose proof (digit_char_nonzero d ltac:(lia)) as Hc. congruence.
Qed.

Lemma fr_of_u64_ok (n : Z) : is_u64 n -> fr_of_u64 n = Some n.
Proof.
  intros Hn. unfold is_u64 in Hn. pose proof u64_lt_modulus.
  rewrite fr_of_decimal.
  - f_equal. apply Z.mod_small. lia.
  - assert (2 ^ 64 < 10 ^ 21) by (vm_compute; reflexivity). lia.
Qed.

End FieldCodecFacts.

(** ** MerkleCommitmentTree *)
Module MerkleFacts.
Import Merkle.

Section Facts.
Context `{Primitives}.

Lemma hash_leaf_1 (x : Fr) : hash_leaf [x] = Some (poseidon [x]).
Proof. reflexivity. Qed.

Lemma hash_leaf_2 (x y : Fr) : hash_leaf [x; y] = Some (poseidon [x; y]).
Proof. reflexivity. Qed.

(** Induction following the pairing of [pair_level]. *)
Lemma list_pair_ind (P : list Fr -> Prop) :
  P [] -> (forall x, P [x]) -> (forall x y r, P r -> P (x :: y :: r)) ->
  forall l, P l.
Proof.
  intros H0 H1 H2. fix IH 1. intros [|x [|y r]]; [exact H0 | apply H1 | apply H2, IH].
Qed.

Lemma pair_level_some (l : list Fr) :
  exists next, pair_level l = Some next /\
    (List.length l <= 2 * List.length next <= List.length l + 1)%nat.
Proof.
  induction l using list_pair_ind.
  - exists []. split; [reflexivity | simpl; lia].
  - eexists. split; [cbn [pair_level]; rewrite hash_leaf_2; reflexivity | simpl; lia].
  - destruct IHl as (next & Hn & Hlen).
    exists (poseidon [x; y] :: next). split.
    + cbn [pair_level]. rewrite hash_leaf_2, Hn. reflexivity.
    + simpl in *. lia.
Qed.

Lemma proof_step_shift (x y : Fr) (r : list Fr) (j : nat) :
  proof_step (x :: y :: r) (S (S j)) = proof_step r j.
Proof.
  unfold proof_step. change (Nat.even (S (S j))) with (Nat.even j).
  destruct (Nat.even j) eqn:Ej.
  - replace (S (S j) + 1)%nat with (S (S (j + 1))) by lia. reflexivity.
  - destruct j as [|j]; [discriminate|].
    replace (S (S (S j)) - 1)%nat with (S (S (S j - 1))) by lia. reflexivity.
Qed.

(** One proof step combines the node at [i] into its parent at [i / 2]. *)
Lemma proof_step_sound (l next : list Fr) (i : nat) (x : Fr) :
  pair_level l = Some next -> nth_error l i = Some x ->
  exists node y, proof_step l i = Some node /\ nth_error next (i / 2) = Some y /\
    forall p, fold_proof x (node :: p) = fold_proof y p.
Proof.
  revert next i x. induction l as [|a|a b r IH] using list_pair_ind;
    intros next i x Hpair Hx.
  - destruct i; discriminate.
  - destruct i as [|[|i]]; try discriminate. injection Hx as <-.
    cbn [pair_level] in Hpair. rewrite hash_leaf_2 in Hpair. injection Hpair as <-.
    eexists _, _. split; [reflexivity|]. split; [reflexivity|].
    intros p. cbn [fold_proof sibling sibling_side]. rewrite hash_leaf_2. reflexivity.
  - cbn [pair_level] in Hpair. rewrite hash_leaf_2 in Hpair.
    destruct (pair_level r) as [acc|] eqn:Hr; [|discriminate].
    injection Hpair as <-.
    destruct i as [|[|j]].
    + injection Hx as <-. eexists _, _. split; [reflexivity|]. split; [reflexivity|].
      intros p. cbn [fold_proof sibling sibling_side]. rewrite hash_leaf_2. reflexivity.
    + injection Hx as <-. eexists _, _. split; [reflexivity|]. split; [reflexivity|].
      intros p. cbn [fold_proof sibling sibling_side]. rewrite hash_leaf_2. reflexivity.
    + cbn [nth_error] in Hx. destruct (IH acc j x eq_refl Hx) as (node & y & Hs & Hy & Hf).
      exists node, y. split; [rewrite proof_step_shift; exact Hs|]. split; [|exact Hf].
      replace (S (S j) / 2)%nat with (S (j / 2)).
      * exact Hy.
      * replace (S (S j)) with (j + 1 * 2)%nat by lia. rewrite Nat.div_add by lia. lia.
Qed.

Lemma tree_levels_nonempty (cur : list Fr) (lv : list (list Fr)) :
  tree_levels cur lv -> lv <> [].
Proof. intros Ht; inversion Ht; discriminate. Qed.

Lemma last_opt_cons {A} (a : A) (l : list A) : l <> [] -> last_opt (a :: l) = last_opt l.
Proof. destruct l; [congruence | reflexivity]. Qed.

(** Every node of a level has a proof leading to the single top node. *)
Lemma proof_loop_sound (cur : list Fr) (lv : list (list Fr)) :
  tree_levels cur lv -> forall i x, nth_error cur i = Some x ->
  exists proof r, proof_loop lv i = Some proof /\ last_opt lv = Some [r] /\
    fold_proof x proof = Some r.
Proof.
  induction 1 as [cur Hlen | cur next rest Hlen Hpair Hrest IH]; intros i x Hx.
  - destruct cur as [|a [|b c]]; [destruct i; discriminate | | simpl in Hlen; lia].
    destruct i as [|[|i]]; try discriminate. injection Hx as <-.
    exists [], a. repeat split.
  - destruct (proof_step_sound cur next i x Hpair Hx) as (node & y & Hs & Hy & Hf).
    destruct (IH (i / 2)%nat y Hy) as (proof & r & Hp & Hlast & Hfold).
    exists (node :: proof), r.
    assert (Hne : rest <> []) by (eapply tree_levels_nonempty; eauto).
    split; [|split].
    + destruct rest as [|l0 rest']; [congruence|].
      cbn [proof_loop]. rewrite Hs. cbn [proof_loop] in Hp. rewrite Hp. reflexivity.
    + rewrite last_opt_cons by exact Hne. exact Hlast.
    + rewrite Hf. exact Hfold.
Qed.

(** The [while] loop terminates within the leaf count and yields the levels. *)
Lemma build_loop_sound (fuel : nat) (cur : list Fr) :
  (List.length cur <= S fuel)%nat ->
  exists lv, build_loop fuel cur = Some lv /\ tree_levels cur lv.
Proof.
  revert cur; induction fuel as [|f IH]; intros cur Hlen; unfold build_loop;
    destruct (List.length cur <=? 1)%nat eqn:E.
  - exists [cur]. split; [reflexivity | constructor; apply Nat.leb_le; exact E].
  - apply Nat.leb_gt in E. lia.
  - exists [cur]. split; [reflexivity | constructor; apply Nat.leb_le; exact E].
  - apply Nat.leb_gt in E. fold build_loop.
    destruct (pair_level_some cur) as (next & Hn & Hnl). rewrite Hn.
    destruct (IH next ltac:(lia)) as (rest & Hb & Ht). rewrite Hb.
    exists (cur :: rest). split; [reflexivity | econstructor; eauto].
Qed.

Lemma map_opt_hash_leaf (leaves : list Fr) :
  map_opt (fun c => hash_leaf [c]) leaves = Some (map (fun c => poseidon [c]) leaves).
Proof.
  induction leaves as [|c l IH]; [reflexivity|].
  cbn [map_opt map]. rewrite hash_leaf_1, IH. reflexivity.
Qed.

Lemma build_tree_levels_sound (leaves : list Fr) :
  exists lv, build_tree_levels leaves = Some lv /\
    tree_levels (map (fun c => poseidon [c]) leaves) lv.
Proof.
  unfold build_tree_levels. rewrite map_opt_hash_leaf.
  apply build_loop_sound. rewrite length_map. lia.
Qed.

Lemma tree_levels_head (cur : list Fr) (lv : list (list Fr)) :
  tree_levels cur lv -> exists rest, lv = cur :: rest.
Proof. intros Ht; inversion Ht; eexists; reflexivity. Qed.

(** Consecutive levels of the construction are related by [pair_level]. *)
Lemma tree_levels_consecutive (cur : list Fr) (lv : list (list Fr)) :
  tree_levels cur lv -> forall k level next,
  nth_error lv k = Some level -> nth_error lv (S k) = Some next ->
  pair_level level = Some next.
Proof.
  induction 1 as [cur Hlen | cur next0 rest Hlen Hpair Hrest IH];
    intros k level next Hk Hk1.
  - destruct k; discriminate.
  - destruct k as [|k].
    + injection Hk as <-. destruct (tree_levels_head _ _ Hrest) as (rest' & ->).
      injection Hk1 as <-. exact Hpair.
    + eapply IH; eauto.
Qed.

Lemma pair_level_odd_last (level next : list Fr) (x : Fr) :
  pair_level level = Some next -> Nat.odd (List.length level) = true ->
  last_opt level = Some x -> last_opt next = Some (poseidon [x; x]).
Proof.
  revert next. induction level as [|a|a b r IH] using list_pair_ind;
    intros next Hpair Hodd Hlast.
  - discriminate.
  - cbn [pair_level] in Hpair. rewrite hash_leaf_2 in Hpair.
    injection Hpair as <-. injection Hlast as <-. reflexivity.
  - cbn [pair_level] in Hpair. rewrite hash_leaf_2 in Hpair.
    destruct (pair_level r) as [acc|] eqn:Hr; [|discriminate].
    injection Hpair as <-.
    assert (Hodd' : Nat.odd (List.length r) = true) by exact Hodd.
    assert (Hne : r <> []) by (intros ->; discriminate).
    destruct (pair_level_some r) as (acc' & Hr' & Hlen). rewrite Hr in Hr'.
    injection Hr' as <-.
    assert (Hacc : acc <> []).
    { intros ->. destruct r; [congruence | simpl in Hlen; lia]. }
    rewrite last_opt_cons by exact Hacc.
    apply IH; [reflexivity | exact Hodd' |].
    rewrite <- Hlast. cbn [last_opt]. destruct r as [|c r]; [congruence|].
    reflexivity.
Qed.

(** ** C1: Merkle round trip *)

(** C1: for every leaf [c] at index [i] of the leaf list, [MerkleTree::new]
    succeeds, [generate_proof(i)] succeeds and [verify_proof([c], proof)]
    returns [true] against the root of that tree. *)
Theorem merkle_round_trip (leaves : list Fr) (i : nat) (c : Fr) :
  nth_error leaves i = Some c ->
  exists t proof, new leaves = Some t /\ generate_proof t i = Some proof /\
    verify_proof t [c] proof = Some true.
Proof.
  intros Hc.
  destruct (build_tree_levels_sound leaves) as (lv & Hb & Ht).
  assert (Hx : nth_error (map (fun c => poseidon [c]) leaves) i = Some (poseidon [c]))
    by (rewrite nth_error_map, Hc; reflexivity).
  destruct (proof_loop_sound _ _ Ht i _ Hx) as (proof & r & Hp & Hlast & Hfold).
  exists {| levels := lv; root := r |}, proof. split; [|split].
  - unfold new. rewrite Hb, Hlast. reflexivity.
  - unfold generate_proof. cbn [levels].
    destruct lv; [exfalso; eapply tree_levels_nonempty; eauto | exact Hp].
  - unfold verify_proof. rewrite hash_leaf_1. cbn [root]. rewrite Hfold.
    rewrite Z.eqb_refl. reflexivity.
Qed.

(** ** C2: odd-node padding *)

(** C2: in every level built by [build_tree_levels] that has an odd number
    of nodes, the last node [x] is hashed with itself: the next level ends
    with [hash(x, x)]; for three leaves [c0, c1, c2] the root is
    [hash(hash(L0, L1), hash(L2, L2))] with [Li = hash([ci])]. *)
Theorem odd_level_padding :
  (forall leaves lv k level next x,
     build_tree_levels leaves = Some lv ->
     nth_error lv k = Some level -> nth_error lv (S k) = Some next ->
     Nat.odd (List.length level) = true -> last_opt level = Some x ->
     last_opt next = Some (poseidon [x; x])) /\
  (forall c0 c1 c2, exists t, new [c0; c1; c2] = Some t /\
     root t = poseidon [poseidon [poseidon [c0]; poseidon [c1]];
                        poseidon [poseidon [c2]; poseidon [c2]]]).
Proof.
  split.
  - intros leaves lv k level next x Hb Hk Hk1 Hodd Hlast.
    destruct (build_tree_levels_sound leaves) as (lv' & Hb' & Ht).
    rewrite Hb in Hb'. injection Hb' as <-.
    apply (pair_level_odd_last level next x); [eapply tree_levels_consecutive; eauto | exact Hodd | exact Hlast].
  - intros c0 c1 c2. eexists. split; reflexivity.
Qed.

(** ** C9: the empty tree *)

(** C9: [MerkleTree::new] panics exactly on the empty leaf list; on every
    other list it succeeds and its root is the single node of the top level. *)
Theorem new_panics_iff_empty (leaves : list Fr) :
  (new leaves = None <-> leaves = []) /\
  (forall t, new leaves = Some t -> last_opt (levels t) = Some [root t]).
Proof.
  destruct leaves as [|c l].
  - split; [split; reflexivity | intros t Ht; discriminate].
  - destruct (build_tree_levels_sound (c :: l)) as (lv & Hb & Ht).
    destruct (proof_loop_sound _ _ Ht 0 (poseidon [c]) eq_refl) as (proof & r & _ & Hlast & _).
    assert (Hn : new (c :: l) = Some {| levels := lv; root := r |})
      by (unfold new; rewrite Hb, Hlast; reflexivity).
    rewrite Hn. split; [split; discriminate|].
    intros t Ht'. injection Ht' as <-. exact Hlast.
Qed.

End Facts.

Import Demo.

Lemma merkle_round_trip_witness :
  nth_error [1; 2; 3]%Z 2 = Some 3%Z /\
  exists t proof, new [1; 2; 3]%Z = Some t /\ generate_proof t 2 = Some proof /\
    verify_proof t [3%Z] proof = Some true.
Proof.
  split; [reflexivity|]. apply (merkle_round_trip [1; 2; 3]%Z 2 3%Z). reflexivity.
Defined.

Definition demo_level0 : list Fr := map (fun c => poseidon [c]) [1; 2; 3]%Z.
Definition demo_level1 : list Fr :=
  [poseidon [poseidon [1%Z]; poseidon [2%Z]]; poseidon [poseidon [3%Z]; poseidon [3%Z]]].
Definition demo_levels : list (list Fr) :=
  [demo_level0; demo_level1; [poseidon demo_level1]].

Lemma odd_level_padding_witness :
  build_tree_levels [1; 2; 3]%Z = Some demo_levels /\
  Nat.odd (List.length demo_level0) = true /\
  last_opt demo_level1 = Some (poseidon [poseidon [3%Z]; poseidon [3%Z]]).
Proof.
  split; [reflexivity|]. split; [reflexivity|].
  apply (proj1 odd_level_padding [1; 2; 3]%Z demo_levels 0 demo_level0 demo_level1);
    reflexivity.
Defined.

Lemma new_panics_iff_empty_witness :
  exists t, new [5%Z] = Some t /\ last_opt (levels t) = Some [root t].
Proof.
  eexists. split; [reflexivity|]. apply (proj2 (new_panics_iff_empty [5%Z])). reflexivity.
Defined.

End MerkleFacts.

(** ** ShieldedKeyHierarchy *)
Module KeysFacts.
Import Keys FieldCodecFacts.
Local Open Scope Z_scope.

Lemma u64_from_le_bytes_bound (bs : list byte) :
  0 <= u64_from_le_bytes bs < 256 ^ Z.of_nat (List.length bs).
Proof.
  induction bs as [|b bs IH]; cbn [u64_from_le_bytes List.length]; [simpl; lia|].
  pose proof (Byte.to_N_bounded b) as Hb.
  rewrite Nat2Z.inj_succ, Z.pow_succ_r by lia. lia.
Qed.

Section Facts.
Context `{Primitives}.

Lemma derive_spending_key_value (seed : list byte) :
  derive_spending_key seed =
    Some (u64_from_le_bytes (firstn 8 (keccak256 (seed ++ spending_key_tag)))).
Proof.
  unfold derive_spending_key, slice_to, copy_from_slice8.
  rewrite keccak256_length. cbn [Nat.leb].
  rewrite length_firstn, keccak256_length. cbn [Nat.min Nat.eqb].
  apply fr_of_u64_ok. unfold is_u64.
  pose proof (u64_from_le_bytes_bound (firstn 8 (keccak256 (seed ++ spending_key_tag)))) as Hb.
  rewrite length_firstn, keccak256_length in Hb. exact Hb.
Qed.

(** ** C10: the spending secret is a u64 *)

(** C10: for every seed, [derive_spending_key] succeeds and the spending
    secret is below [2^64]: it is the first 8 bytes of the Keccak256 output
    read as a little-endian u64, embedded into the field unchanged. *)
Theorem spending_secret_below_2_64 (seed : list byte) :
  exists s, derive_spending_key seed = Some s /\
    s = u64_from_le_bytes (firstn 8 (keccak256 (seed ++ spending_key_tag))) /\
    0 <= s < 2 ^ 64.
Proof.
  eexists. split; [apply derive_spending_key_value|]. split; [reflexivity|].
  pose proof (u64_from_le_bytes_bound (firstn 8 (keccak256 (seed ++ spending_key_tag)))) as Hb.
  rewrite length_firstn, keccak256_length in Hb. exact Hb.
Qed.

(** ** C7: determinism of [from_seed] *)

(** C7: [from_seed] is total and every key it stores is an explicit
    function of the seed alone, so two invocations on one seed yield
    identical spending and viewing keys. *)
Theorem from_seed_deterministic (seed : list byte) :
  exists sk, derive_spending_key seed = Some sk /\
    from_seed seed =
      Some {| Keys.seed := seed;
              private_spending_key_hex := fr_display sk;
              public_spending_key_hex := fr_display (poseidon [sk]);
              private_viewing_key := seed;
              public_viewing_key := x25519 seed X25519_BASEPOINT |}.
Proof.
  eexists. split; [apply derive_spending_key_value|].
  unfold from_seed. rewrite derive_spending_key_value. reflexivity.
Qed.

(** ** C6: the viewing keypair *)

(** C6 (amended): the viewing secret is the raw seed and the viewing public
    key is [X25519(seed, basepoint)], with no domain tag; only the spending
    key is domain-separated, as the first 8 bytes of
    [Keccak256(seed ++ "spending_key")]. *)
Theorem viewing_key_is_raw_seed (seed : list byte) :
  derive_public_viewing_key seed = (seed, x25519 seed X25519_BASEPOINT) /\
  (forall k, from_seed seed = Some k ->
     private_viewing_key k = seed /\ get_private_viewing_key k = seed /\
     public_viewing_key k = x25519 seed X25519_BASEPOINT) /\
  derive_spending_key seed =
    Some (u64_from_le_bytes (firstn 8 (keccak256 (seed ++ spending_key_tag)))).
Proof.
  split; [reflexivity|]. split; [|apply derive_spending_key_value].
  intros k Hk. unfold from_seed in Hk. rewrite derive_spending_key_value in Hk.
  injection Hk as <-. repeat split.
Qed.

(** ** C8: key agreement has no failure path *)

(** C8 (amended): [ecdh] accepts every 32-byte counterparty key, without a
    length or curve-point check, and returns [X25519(seed, key)]; there is
    no [KeyFormatError].  [from_seed] is total, and [sign_nullifier]
    succeeds on every u64 salt once the stored spending key parses. *)
Theorem ecdh_total (k : ShieldedKeys) (their_pubkey : list byte) :
  ecdh_result k their_pubkey = inl (x25519 (Keys.seed k) their_pubkey) /\
  (forall seed, exists k', from_seed seed = Some k') /\
  (forall salt sk, is_u64 salt -> get_private_spending_key k = Some sk ->
     sign_nullifier k salt = Some (poseidon [salt; sk])).
Proof.
  split; [reflexivity|]. split.
  - intros seed. destruct (from_seed_deterministic seed) as (sk & _ & Hk). eexists; exact Hk.
  - intros salt sk Hs Hsk. unfold sign_nullifier.
    change (fr_from_str (u64_to_string salt)) with (fr_of_u64 salt).
    rewrite (fr_of_u64_ok salt Hs), Hsk.
    reflexivity.
Qed.

End Facts.

Import Demo.

Lemma viewing_secret_raw_seed_cex :
  exists k, from_seed demo_seed = Some k /\
    private_viewing_key k = demo_seed /\ get_private_viewing_key k = demo_seed.
Proof. eexists. split; [reflexivity|]. split; reflexivity. Qed.

Definition demo_keys : ShieldedKeys :=
  {| Keys.seed := demo_seed;
     private_spending_key_hex := "42";
     public_spending_key_hex := "7";
     private_viewing_key := demo_seed;
     public_viewing_key := demo_x25519 demo_seed X25519_BASEPOINT |}.

Definition demo_seed_keys : ShieldedKeys :=
  {| Keys.seed := demo_seed;
     private_spending_key_hex := "0";
     public_spending_key_hex := fr_display (poseidon [0]);
     private_viewing_key := demo_seed;
     public_viewing_key := x25519 demo_seed X25519_BASEPOINT |}.

Lemma viewing_key_is_raw_seed_witness :
  from_seed demo_seed = Some demo_seed_keys /\
  private_viewing_key demo_seed_keys = demo_seed /\
  get_private_viewing_key demo_seed_keys = demo_seed /\
  public_viewing_key demo_seed_keys = x25519 demo_seed X25519_BASEPOINT.
Proof.
  split; [reflexivity|].
  apply (proj1 (proj2 (viewing_key_is_raw_seed demo_seed)) demo_seed_keys). reflexivity.
Defined.

Lemma ecdh_zero_point_cex :
  ecdh_result demo_keys zero_point <> inr KeyFormatError /\
  ecdh_result demo_keys zero_point = inl (demo_x25519 demo_seed zero_point).
Proof. split; [discriminate | reflexivity]. Qed.

Lemma ecdh_total_witness :
  is_u64 9 /\ get_private_spending_key demo_keys = Some 42 /\
  sign_nullifier demo_keys 9 = Some (poseidon [9; 42]).
Proof.
  split; [unfold is_u64; lia|]. split; [reflexivity|].
  apply (proj2 (proj2 (ecdh_total demo_keys zero_point)) 9 42); [unfold is_u64; lia | reflexivity].
Defined.

End KeysFacts.

(** ** NoteCommitmentScheme *)
Module NotesFacts.
Import Notes FieldCodecFacts.
Local Open Scope Z_scope.

Section Facts.
Context `{Primitives}.

(** ** C3: the commitment *)

(** C3: for every note, [commit] is the Poseidon hash of the five fields,
    each converted with [Fr::from_str(&f.to_string())], in the order
    (value, salt, owner, asset_id, maturity_date); for a note of u64
    fields the conversion is the identity and never fails. *)
Theorem commit_five_fields_in_order :
  (forall (F : Type) (TS : ToString F) (n : Note F) (h : Fr),
     commit n = Some h ->
     exists v s o a m,
       fr_from_str (to_string (value n)) = Some v /\
       fr_from_str (to_string (salt n)) = Some s /\
       fr_from_str (to_string (owner n)) = Some o /\
       fr_from_str (to_string (asset_id n)) = Some a /\
       fr_from_str (to_string (maturity_date n)) = Some m /\
       h = poseidon [v; s; o; a; m]) /\
  (forall n : Note Z,
     is_u64 (value n) -> is_u64 (salt n) -> is_u64 (owner n) ->
     is_u64 (asset_id n) -> is_u64 (maturity_date n) ->
     commit n = Some (poseidon [value n; salt n; owner n; asset_id n; maturity_date n])).
Proof.
  split.
  - intros F TS n h Hc. unfold commit in Hc.
    destruct (fr_from_str (to_string (value n))) as [v|]; [|discriminate].
    destruct (fr_from_str (to_string (owner n))) as [o|]; [|discriminate].
    destruct (fr_from_str (to_string (salt n))) as [s|]; [|discriminate].
    destruct (fr_from_str (to_string (asset_id n))) as [a|]; [|discriminate].
    destruct (fr_from_str (to_string (maturity_date n))) as [m|]; [|discriminate].
    injection Hc as <-. exists v, s, o, a, m. repeat split.
  - intros n Hv Hs Ho Ha Hm. unfold commit, to_string, u64_ToString.
    change (fr_from_str (u64_to_string ?x)) with (fr_of_u64 x).
    rewrite (fr_of_u64_ok _ Hv), (fr_of_u64_ok _ Ho), (fr_of_u64_ok _ Hs),
      (fr_of_u64_ok _ Ha), (fr_of_u64_ok _ Hm).
    reflexivity.
Qed.

(** ** C4: the nullifier *)

(** C4: [nullifer] is the hash of (salt, private key) and depends on
    nothing else: two notes with the same salt have the same nullifier under
    one key, whatever their value, owner, asset and maturity;
    [sign_nullifier] computes the same hash from the stored key. *)
Theorem nullifier_depends_on_salt_and_secret (n1 n2 : Note Z) (private_key : Fr) :
  salt n1 = salt n2 -> is_u64 (salt n1) ->
  nullifer n1 private_key = nullifer n2 private_key /\
  nullifer n1 private_key = Some (poseidon [salt n1; private_key]) /\
  (forall k, Keys.get_private_spending_key k = Some private_key ->
     Keys.sign_nullifier k (salt n1) = nullifer n2 private_key).
Proof.
  intros Hsalt Hs.
  assert (Hn : forall n : Note Z, salt n = salt n1 ->
            nullifer n private_key = Some (poseidon [salt n1; private_key])).
  { intros n Hn. unfold nullifer, to_string, u64_ToString. rewrite Hn.
    change (fr_from_str (u64_to_string (salt n1))) with (fr_of_u64 (salt n1)).
    rewrite (fr_of_u64_ok _ Hs). reflexivity. }
  rewrite (Hn n1 eq_refl), (Hn n2 (eq_sym Hsalt)).
  split; [reflexivity|]. split; [reflexivity|].
  intros k Hk. unfold Keys.sign_nullifier.
  change (fr_from_str (u64_to_string (salt n1))) with (fr_of_u64 (salt n1)).
  rewrite (fr_of_u64_ok _ Hs), Hk. reflexivity.
Qed.

End Facts.

Import Demo.

Definition demo_note1 : Note Z :=
  {| value := 100; salt := 77; owner := 5; asset_id := 1; maturity_date := 1893456000 |}.
Definition demo_note2 : Note Z :=
  {| value := 60; salt := 77; owner := 5; asset_id := 2; maturity_date := 1700000000 |}.

Lemma commit_five_fields_in_order_witness :
  commit demo_note1 = Some (poseidon [100; 77; 5; 1; 1893456000]).
Proof.
  apply (proj2 commit_five_fields_in_order demo_note1); unfold is_u64; simpl; lia.
Defined.

Lemma nullifier_depends_on_salt_and_secret_witness :
  salt demo_note1 = salt demo_note2 /\ is_u64 (salt demo_note1) /\
  nullifer demo_note1 42 = nullifer demo_note2 42.
Proof.
  split; [reflexivity|]. split; [unfold is_u64; simpl; lia|].
  apply (nullifier_depends_on_salt_and_secret demo_note1 demo_note2 42);
    [reflexivity | unfold is_u64; simpl; lia].
Defined.

End NotesFacts.

(** ** JoinSplit value conservation *)
Module JoinSplitFacts.
Import JoinSplit FieldCodec.
Local Open Scope Z_scope.

Section Facts.
Context `{Primitives} {P : Type}.

(** ** C5: value conservation *)

(** C5: the witness builder emits a witness only when the two input values
    sum to the two output values, and refuses every other request with
    [ValueConservationError]; in [buy], whenever [buy_value < source.value]
    the builder succeeds, the buyer note carries [buy_value], the change
    note the u64 [source.value - buy_value], and buyer plus change equals the
    consumed note (the dummy input carries 0); otherwise [buy] stops first. *)
Theorem value_conservation :
  (forall root (in1 : CircuitNote) (p1 : P) nf1 in2 p2 nf2 outs cms sk w,
     build_joinsplit_witness root in1 p1 nf1 in2 p2 nf2 outs cms sk = inl w ->
     cvalue in1 + cvalue in2 = cvalue (fst outs) + cvalue (snd outs)) /\
  (forall root (in1 : CircuitNote) (p1 : P) nf1 in2 p2 nf2 outs cms sk,
     cvalue in1 + cvalue in2 <> cvalue (fst outs) + cvalue (snd outs) ->
     build_joinsplit_witness root in1 p1 nf1 in2 p2 nf2 outs cms sk =
       inr ValueConservationError) /\
  (forall buy_value source issuer buyer buyer_salt change_salt root
          (rp dp : P) nf dnf sk,
     is_u64 buy_value -> is_u64 (bond_value source) ->
     buy_value < bond_value source ->
     exists w,
       buy_joinsplit buy_value source issuer buyer buyer_salt change_salt root
         rp dp nf dnf sk = Some (inl w) /\
       cvalue (fst (fst (input1 w))) = bond_value source /\
       cvalue (fst (fst (input2 w))) = 0 /\
       cvalue (fst (output1 w)) = buy_value /\
       is_u64 (cvalue (fst (output2 w))) /\
       cvalue (fst (output1 w)) + cvalue (fst (output2 w)) =
         cvalue (fst (fst (input1 w))) + cvalue (fst (fst (input2 w)))) /\
  (forall buy_value source issuer buyer buyer_salt change_salt root
          (rp dp : P) nf dnf sk,
     bond_value source <= buy_value ->
     buy_joinsplit buy_value source issuer buyer buyer_salt change_salt root
       rp dp nf dnf sk = None).
Proof.
  split; [|split; [|split]].
  - intros root in1 p1 nf1 in2 p2 nf2 outs cms sk w Hb.
    unfold build_joinsplit_witness in Hb.
    destruct (_ =? _) eqn:E; [apply Z.eqb_eq in E; exact E | discriminate].
  - intros root in1 p1 nf1 in2 p2 nf2 outs cms sk Hne.
    unfold build_joinsplit_witness.
    destruct (_ =? _) eqn:E; [apply Z.eqb_eq in E; contradiction | reflexivity].
  - intros buy_value source issuer buyer buyer_salt change_salt root rp dp nf dnf sk
      Hbuy Hsrc Hlt.
    unfold buy_joinsplit.
    replace (buy_value >=? bond_value source) with false
      by (symmetry; rewrite Z.geb_leb; apply Z.leb_gt; exact Hlt).
    unfold u64_sub.
    replace (bond_value source <? buy_value) with false
      by (symmetry; apply Z.ltb_ge; lia).
    unfold build_joinsplit_witness. cbn [cvalue fst snd].
    replace (bond_value source + 0 =? buy_value + (bond_value source - buy_value))
      with true by (symmetry; apply Z.eqb_eq; lia).
    eexists. split; [reflexivity|]. cbn [input1 input2 output1 output2 fst cvalue].
    unfold is_u64 in *. lia.
  - intros buy_value source issuer buyer buyer_salt change_salt root rp dp nf dnf sk Hge.
    unfold buy_joinsplit.
    replace (buy_value >=? bond_value source) with true
      by (symmetry; rewrite Z.geb_leb; apply Z.leb_le; exact Hge).
    reflexivity.
Qed.

End Facts.

Import Demo.

Definition demo_bond : Bond :=
  {| bond_value := 100; bond_salt := 11; bond_asset_id := 1; bond_maturity_date := 1893456000 |}.

Definition demo_in_note : CircuitNote :=
  {| cvalue := 100; csalt := 11; cowner := 5; casset_id := 1; cmaturity_date := 1893456000 |}.
Definition demo_dummy_note : CircuitNote :=
  {| cvalue := 0; csalt := 0; cowner := 5; casset_id := 1; cmaturity_date := 1893456000 |}.
Definition demo_out (v : Z) : CircuitNote :=
  {| cvalue := v; csalt := 21; cowner := 6; casset_id := 1; cmaturity_date := 1893456000 |}.

Lemma value_conservation_witness :
  (is_u64 60 /\ is_u64 (bond_value demo_bond) /\ 60 < bond_value demo_bond /\
   exists w : JoinSplitWitness unit,
     buy_joinsplit 60 demo_bond 5 6 21 22 0 tt tt 1 2 3 = Some (inl w) /\
     cvalue (fst (fst (input1 w))) = 100 /\ cvalue (fst (fst (input2 w))) = 0 /\
     cvalue (fst (output1 w)) = 60 /\ is_u64 (cvalue (fst (output2 w))) /\
     cvalue (fst (output1 w)) + cvalue (fst (output2 w)) =
       cvalue (fst (fst (input1 w))) + cvalue (fst (fst (input2 w)))) /\
  (cvalue demo_in_note + cvalue demo_dummy_note <> cvalue (demo_out 60) + cvalue (demo_out 50) /\
   build_joinsplit_witness 0 demo_in_note tt 1 demo_dummy_note tt 2
     (demo_out 60, demo_out 50) (0, 0) 3 = inr ValueConservationError).
Proof.
  split.
  - split; [unfold is_u64; lia|]. split; [unfold is_u64; simpl; lia|].
    split; [simpl; lia|].
    apply (proj1 (proj2 (proj2 (@value_conservation _ unit)))
             60 demo_bond 5 6 21 22 0 tt tt 1 2 3); unfold is_u64; simpl; lia.
  - split; [simpl; lia|].
    apply (proj1 (proj2 (@value_conservation _ unit))). simpl; lia.
Defined.

End JoinSplitFacts.

(** ** MerkleCommitmentTree: edge behaviour, height and binding *)
Module MerkleExtraFacts.
Import Merkle MerkleFacts.

Section Facts.
Context `{Primitives}.

Lemma fold_proof_some (x : Fr) (p : list Node) : exists r, fold_proof x p = Some r.
Proof.
  revert x; induction p as [|[s side] p IH]; intros x; [eexists; reflexivity|].
  cbn [fold_proof sibling sibling_side]. destruct side; rewrite hash_leaf_2; apply IH.
Qed.

Lemma proof_loop_cons2 (level l0 : list Fr) (rest : list (list Fr)) (i : nat) :
  proof_loop (level :: l0 :: rest) i =
  let? node := proof_step level i in
  let? proof := proof_loop (l0 :: rest) (i / 2) in
  Some (node :: proof).
Proof. reflexivity. Qed.

Lemma proof_loop_length (lv : list (list Fr)) (i : nat) (p : list Node) :
  proof_loop lv i = Some p -> List.length p = (List.length lv - 1)%nat.
Proof.
  revert i p; induction lv as [|level rest IH]; intros i p Hp.
  - injection Hp as <-. reflexivity.
  - destruct rest as [|l0 rest'].
    + injection Hp as <-. reflexivity.
    + rewrite proof_loop_cons2 in Hp.
      destruct (proof_step level i) as [node|]; [|discriminate].
      destruct (proof_loop (l0 :: rest') (i / 2)) as [q|] eqn:Hq; [|discriminate].
      injection Hp as <-. apply IH in Hq. cbn [List.length] in *. lia.
Qed.

(** The number of levels is [ceil(log2 n) + 1] for [n] nodes at the bottom. *)
Lemma tree_levels_height (cur : list Fr) (lv : list (list Fr)) :
  tree_levels cur lv -> cur <> [] ->
  (List.length cur <= 2 ^ (List.length lv - 1))%nat /\
  (2 <= List.length lv -> 2 ^ (List.length lv - 2) < List.length cur)%nat.
Proof.
  induction 1 as [cur Hlen | cur next rest Hlen Hpair Hrest IH]; intros Hne.
  - cbn [List.length]. simpl. lia.
  - destruct (pair_level_some cur) as (next' & Hn & Hnl). rewrite Hpair in Hn.
    injection Hn as <-.
    assert (Hnext : next <> []) by (intros ->; cbn [List.length] in Hnl; lia).
    destruct (IH Hnext) as [Hup Hlow].
    pose proof (tree_levels_nonempty _ _ Hrest) as Hrne.
    destruct rest as [|l0 rest']; [congruence|].
    cbn [List.length] in *. remember (List.length rest') as L eqn:HL.
    replace (S (S L) - 1)%nat with (S L) by lia.
    replace (S (S L) - 2)%nat with L by lia.
    replace (S L - 1)%nat with L in Hup by lia.
    rewrite Nat.pow_succ_r'. split; [lia|].
    intros _. destruct L as [|m].
    + simpl. lia.
    + replace (S (S m) - 2)%nat with m in Hlow by lia.
      specialize (Hlow ltac:(lia)). rewrite Nat.pow_succ_r'. lia.
Qed.

(** The tree built by [new] from its levels. *)
Lemma new_inv (leaves : list Fr) (t : MerkleTree) :
  new leaves = Some t ->
  exists r, tree_levels (map (fun c => poseidon [c]) leaves) (levels t) /\
    last_opt (levels t) = Some [r] /\ root t = r.
Proof.
  intros Hn. destruct (build_tree_levels_sound leaves) as (lv & Hb & Ht).
  destruct leaves as [|c l].
  - unfold new, build_tree_levels in Hn. cbn in Hn. discriminate.
  - destruct (proof_loop_sound _ _ Ht 0 (poseidon [c]) eq_refl) as (p & r & _ & Hlast & _).
    unfold new in Hn. rewrite Hb, Hlast in Hn. injection Hn as <-.
    exists r. repeat split; assumption.
Qed.

Lemma tree_levels_two (cur : list Fr) (lv : list (list Fr)) :
  tree_levels cur lv -> (1 < List.length cur)%nat ->
  exists l0 rest, lv = cur :: l0 :: rest.
Proof.
  intros Ht Hl. inversion Ht as [cur' Hlen | cur' next rest Hlen Hpair Hrest]; [lia|].
  destruct (tree_levels_head _ _ Hrest) as (rest' & ->). eexists _, _. reflexivity.
Qed.

Lemma generate_proof_levels (t : MerkleTree) (i : nat) :
  levels t <> [] -> generate_proof t i = proof_loop (levels t) i.
Proof. unfold generate_proof. destruct (levels t); [congruence | reflexivity]. Qed.

Lemma proof_step_out_of_range (level : list Fr) (i : nat) :
  (List.length level < i \/ (i = List.length level /\ Nat.even i = true))%nat ->
  proof_step level i = None.
Proof.
  intros Hi. unfold proof_step.
  assert (Hn : nth_error level i = None) by (apply nth_error_None; lia).
  destruct (Nat.even i) eqn:E.
  - destruct (i + 1 <? List.length level)%nat eqn:Hlt.
    + apply Nat.ltb_lt in Hlt. lia.
    + rewrite Hn. reflexivity.
  - destruct (i - 1 <? List.length level)%nat eqn:Hlt.
    + apply Nat.ltb_lt in Hlt. destruct Hi as [Hi | [_ Hi]]; [lia | congruence].
    + rewrite Hn. reflexivity.
Qed.

Lemma even_odd_double (m : nat) :
  Nat.even (2 * m) = true /\ Nat.even (2 * m + 1) = false.
Proof.
  split.
  - apply Nat.even_spec. exists m. reflexivity.
  - rewrite <- Nat.negb_odd. replace (Nat.odd (2 * m + 1)) with true; [reflexivity|].
    symmetry. apply Nat.odd_spec. exists m. reflexivity.
Qed.

(** ** Extras on [generate_proof] and [verify_proof] *)

(** [generate_proof] at an index outside the leaves: on a one-leaf tree
    every index gets the empty proof; on two or more leaves it panics past
    the leaf count, and at the leaf count itself when that count is even. *)
Theorem generate_proof_out_of_range (leaves : list Fr) (t : MerkleTree) (i : nat) :
  new leaves = Some t ->
  (List.length leaves = 1%nat -> generate_proof t i = Some []) /\
  ((2 <= List.length leaves)%nat ->
   (List.length leaves < i \/ (i = List.length leaves /\ Nat.even i = true))%nat ->
   generate_proof t i = None).
Proof.
  intros Hn. destruct (new_inv leaves t Hn) as (r & Ht & _ & _).
  assert (Hne : levels t <> []) by (eapply tree_levels_nonempty; eauto).
  rewrite (generate_proof_levels t i Hne).
  split.
  - intros H1. inversion Ht as [cur Hlen Hcur Hlv | cur next rest Hlen Hpair Hrest Hcur Hlv].
    + reflexivity.
    + rewrite length_map in Hlen. lia.
  - intros H2 Hi.
    destruct (tree_levels_two _ _ Ht) as (l0 & rest & ->); [rewrite length_map; lia|].
    rewrite proof_loop_cons2.
    rewrite proof_step_out_of_range; [reflexivity|]. rewrite length_map. exact Hi.
Qed.

(** With an odd number [n >= 3] of leaves, [generate_proof(n)] (one past
    the last index) succeeds, and its proof, which differs from the proof
    of index [n - 1], verifies the last leaf: the side of the duplicated
    sibling at the bottom level is not checked. *)
Theorem phantom_index_accepted (leaves : list Fr) (t : MerkleTree) (c : Fr) :
  new leaves = Some t -> Nat.odd (List.length leaves) = true ->
  (3 <= List.length leaves)%nat -> nth_error leaves (List.length leaves - 1) = Some c ->
  exists proof proof',
    generate_proof t (List.length leaves) = Some proof /\
    verify_proof t [c] proof = Some true /\
    generate_proof t (List.length leaves - 1) = Some proof' /\ proof <> proof'.
Proof.
  intros Hn Hodd H3 Hc.
  destruct (new_inv leaves t Hn) as (r & Ht & Hlast & Hroot).
  assert (Hne : levels t <> []) by (eapply tree_levels_nonempty; eauto).
  rewrite !(generate_proof_levels t _ Hne).
  apply Nat.odd_spec in Hodd as [m Hm].
  set (cur := map (fun c => poseidon [c]) leaves) in *.
  assert (Hx : nth_error cur (List.length leaves - 1) = Some (poseidon [c]))
    by (unfold cur; rewrite nth_error_map, Hc; reflexivity).
  destruct (proof_loop_sound _ _ Ht _ _ Hx) as (p0 & r0 & Hp0 & Hlast0 & Hfold0).
  rewrite Hlast in Hlast0. injection Hlast0 as <-.
  destruct (tree_levels_two _ _ Ht) as (l0 & rest' & Hlv);
    [unfold cur; rewrite length_map; lia|].
  - rewrite Hlv in Hp0 |- *. rewrite proof_loop_cons2 in Hp0. rewrite !proof_loop_cons2.
    assert (Hlc : List.length cur = List.length leaves) by (unfold cur; apply length_map).
    destruct (even_odd_double m) as [Hev Hod].
    assert (Hs0 : proof_step cur (List.length leaves - 1) =
                  Some {| sibling := poseidon [c]; sibling_side := Right |}).
    { unfold proof_step. replace (List.length leaves - 1)%nat with (2 * m)%nat by lia.
      rewrite Hev. destruct (2 * m + 1 <? List.length cur)%nat eqn:Hlt.
      - apply Nat.ltb_lt in Hlt. lia.
      - replace (2 * m)%nat with (List.length leaves - 1)%nat by lia. rewrite Hx. reflexivity. }
    assert (Hs1 : proof_step cur (List.length leaves) =
                  Some {| sibling := poseidon [c]; sibling_side := Left |}).
    { unfold proof_step. rewrite Hm, Hod. rewrite <- Hm.
      destruct (List.length leaves - 1 <? List.length cur)%nat eqn:Hlt.
      - rewrite Hx. reflexivity.
      - apply Nat.ltb_ge in Hlt. lia. }
    assert (Hdiv : (List.length leaves / 2 = (List.length leaves - 1) / 2)%nat).
    { rewrite Hm. replace (2 * m + 1 - 1)%nat with (m * 2)%nat by lia.
      replace (2 * m + 1)%nat with (1 + m * 2)%nat by lia.
      rewrite Nat.div_add, Nat.div_mul by lia. reflexivity. }
    rewrite Hs0 in Hp0. rewrite Hs1, Hs0, Hdiv.
    destruct (proof_loop (l0 :: rest') ((List.length leaves - 1) / 2)) as [q|]; [|discriminate].
    injection Hp0 as <-.
    eexists _, _. split; [reflexivity|]. split; [|split; [reflexivity | congruence]].
    unfold verify_proof. rewrite hash_leaf_1.
    cbn [fold_proof sibling sibling_side] in Hfold0 |- *. rewrite hash_leaf_2 in Hfold0 |- *.
    rewrite Hfold0, Hroot, Z.eqb_refl. reflexivity.
Qed.

(** [verify_proof] panics exactly when the leaf slice is empty or has more
    than 16 elements ([hash_leaf]'s [expect]); otherwise it returns a
    boolean for every proof. *)
Theorem verify_proof_panics_iff (t : MerkleTree) (leaf_value : list Fr) (proof : list Node) :
  verify_proof t leaf_value proof = None <->
  (leaf_value = [] \/ 16 < List.length leaf_value)%nat.
Proof.
  unfold verify_proof, hash_leaf, poseidon_hash.
  destruct ((1 <=? List.length leaf_value) && (List.length leaf_value <=? 16))%nat eqn:E.
  - apply andb_true_iff in E as [E1 E2]. apply Nat.leb_le in E1, E2.
    destruct (fold_proof_some (poseidon leaf_value) proof) as (h & Hh). rewrite Hh.
    split; [discriminate|]. intros [-> | Hl]; cbn [List.length] in *; lia.
  - split; [intros _|reflexivity].
    apply andb_false_iff in E as [E | E]; apply Nat.leb_gt in E.
    + left. apply length_zero_iff_nil. lia.
    + right. exact E.
Qed.

(** The depth of the tree: with [L] levels on [n] leaves,
    [2^(L-2) < n <= 2^(L-1)] (so [L - 1 = ceil(log2 n)]), and every proof
    [generate_proof] returns has [L - 1] nodes. *)
Theorem tree_height (leaves : list Fr) (t : MerkleTree) :
  new leaves = Some t ->
  (List.length leaves <= 2 ^ (List.length (levels t) - 1))%nat /\
  (2 <= List.length (levels t) ->
   2 ^ (List.length (levels t) - 2) < List.length leaves)%nat /\
  (forall i proof, generate_proof t i = Some proof ->
   List.length proof = (List.length (levels t) - 1)%nat).
Proof.
  intros Hn. destruct (new_inv leaves t Hn) as (r & Ht & _ & _).
  assert (Hl : leaves <> []).
  { intros ->. unfold new in Hn. cbn in Hn. discriminate. }
  assert (Hm : map (fun c => poseidon [c]) leaves <> []) by (destruct leaves; [congruence | discriminate]).
  destruct (tree_levels_height _ _ Ht Hm) as [Hup Hlow]. rewrite length_map in Hup, Hlow.
  split; [exact Hup|]. split; [exact Hlow|].
  intros i proof Hp. unfold generate_proof in Hp.
  destruct (levels t) as [|l0 rest] eqn:E; [discriminate|].
  rewrite <- E in Hp |- *. apply (proof_loop_length _ i). exact Hp.
Qed.

End Facts.

Section Binding.
Context `{Primitives}.
Hypothesis poseidon_injective : forall l1 l2, poseidon l1 = poseidon l2 -> l1 = l2.

Lemma fold_proof_injective (p : list Node) (x y r : Fr) :
  fold_proof x p = Some r -> fold_proof y p = Some r -> x = y.
Proof.
  revert x y; induction p as [|[s side] p IH]; intros x y Hx Hy.
  - cbn in *. congruence.
  - cbn [fold_proof sibling sibling_side] in Hx, Hy.
    destruct side; rewrite hash_leaf_2 in Hx, Hy;
      pose proof (IH _ _ Hx Hy) as E; apply poseidon_injective in E; congruence.
Qed.

Lemma fold_proof_app (x : Fr) (p q : list Node) :
  fold_proof x (p ++ q) = let? h := fold_proof x p in fold_proof h q.
Proof.
  revert x; induction p as [|[s side] p IH]; intros x; [reflexivity|].
  cbn [app fold_proof sibling sibling_side]. destruct side; rewrite hash_leaf_2; apply IH.
Qed.

(** For a collision-free Poseidon, the proof [generate_proof(i)] returns
    verifies exactly the leaf at [i]: [verify_proof([c'], proof)] is
    [c' == c]. *)
Theorem proof_binds_leaf (leaves : list Fr) (t : MerkleTree) (i : nat) (c c' : Fr)
    (proof : list Node) :
  new leaves = Some t -> nth_error leaves i = Some c -> generate_proof t i = Some proof ->
  verify_proof t [c'] proof = Some (Z.eqb c' c).
Proof.
  intros Hn Hc Hp. destruct (new_inv leaves t Hn) as (r & Ht & Hlast & Hroot).
  assert (Hx : nth_error (map (fun c => poseidon [c]) leaves) i = Some (poseidon [c]))
    by (rewrite nth_error_map, Hc; reflexivity).
  destruct (proof_loop_sound _ _ Ht i _ Hx) as (p0 & r0 & Hp0 & Hlast0 & Hfold0).
  rewrite Hlast in Hlast0. injection Hlast0 as <-.
  assert (Hne : levels t <> []) by (eapply tree_levels_nonempty; eauto).
  rewrite generate_proof_levels in Hp by exact Hne. rewrite Hp0 in Hp. injection Hp as <-.
  unfold verify_proof. rewrite hash_leaf_1.
  destruct (fold_proof_some (poseidon [c']) p0) as (r' & Hr'). rewrite Hr', Hroot.
  f_equal. destruct (Z.eqb_spec c' c) as [-> | Hneq].
  - rewrite Hfold0 in Hr'. injection Hr' as ->. apply Z.eqb_refl.
  - apply Z.eqb_neq. intros ->. apply Hneq.
    pose proof (fold_proof_injective _ _ _ _ Hr' Hfold0) as E.
    apply poseidon_injective in E. congruence.
Qed.

(** For a collision-free Poseidon, replacing the sibling value of any one
    node of a generated proof (keeping its side) makes [verify_proof]
    return [false] for the leaf the proof was made for. *)
Theorem tampered_sibling_rejected (leaves : list Fr) (t : MerkleTree) (i : nat) (c : Fr)
    (proof p1 p2 : list Node) (n : Node) (s' : Fr) :
  new leaves = Some t -> nth_error leaves i = Some c -> generate_proof t i = Some proof ->
  proof = p1 ++ n :: p2 -> s' <> sibling n ->
  verify_proof t [c] (p1 ++ {| sibling := s'; sibling_side := sibling_side n |} :: p2) =
  Some false.
Proof.
  intros Hn Hc Hp Hsplit Hs. destruct (new_inv leaves t Hn) as (r & Ht & Hlast & Hroot).
  assert (Hx : nth_error (map (fun c => poseidon [c]) leaves) i = Some (poseidon [c]))
    by (rewrite nth_error_map, Hc; reflexivity).
  destruct (proof_loop_sound _ _ Ht i _ Hx) as (p0 & r0 & Hp0 & Hlast0 & Hfold0).
  rewrite Hlast in Hlast0. injection Hlast0 as <-.
  assert (Hne : levels t <> []) by (eapply tree_levels_nonempty; eauto).
  rewrite generate_proof_levels in Hp by exact Hne. rewrite Hp0 in Hp. injection Hp as <-.
  subst p0. unfold verify_proof. rewrite hash_leaf_1.
  rewrite fold_proof_app in Hfold0 |- *.
  destruct (fold_proof_some (poseidon [c]) p1) as (h & Hh). rewrite Hh in Hfold0 |- *.
  destruct (fold_proof_some h ({| sibling := s'; sibling_side := sibling_side n |} :: p2))
    as (r' & Hr'). rewrite Hr', Hroot. f_equal. apply Z.eqb_neq. intros ->.
  destruct n as [s side]. cbn [fold_proof sibling sibling_side] in Hfold0, Hr', Hs.
  destruct side; rewrite hash_leaf_2 in Hfold0, Hr';
    pose proof (fold_proof_injective _ _ _ _ Hr' Hfold0) as E;
    apply poseidon_injective in E; congruence.
Qed.

End Binding.

Import Demo.

Lemma generate_proof_out_of_range_witness :
  exists t, new [1; 2; 3; 4]%Z = Some t /\ generate_proof t 4 = None /\
    generate_proof t 7 = None.
Proof.
  eexists. split; [reflexivity|]. split.
  - apply (proj2 (generate_proof_out_of_range [1; 2; 3; 4]%Z _ 4 eq_refl)); cbn; [lia|].
    right. split; reflexivity.
  - apply (proj2 (generate_proof_out_of_range [1; 2; 3; 4]%Z _ 7 eq_refl)); cbn; lia.
Defined.

Lemma phantom_index_accepted_witness :
  exists t, new [1; 2; 3]%Z = Some t /\
  exists proof proof', generate_proof t 3 = Some proof /\
    verify_proof t [3%Z] proof = Some true /\
    generate_proof t 2 = Some proof' /\ proof <> proof'.
Proof.
  eexists. split; [reflexivity|].
  apply (phantom_index_accepted [1; 2; 3]%Z _ 3%Z eq_refl eq_refl); [cbn; lia | reflexivity].
Defined.

Lemma tree_height_witness :
  exists t, new [1; 2; 3; 4; 5]%Z = Some t /\
    (5 <= 2 ^ (List.length (levels t) - 1))%nat /\
    (2 ^ (List.length (levels t) - 2) < 5)%nat.
Proof.
  eexists. split; [reflexivity|].
  destruct (tree_height [1; 2; 3; 4; 5]%Z _ eq_refl) as (Hup & Hlow & _).
  split; [exact Hup | apply Hlow; cbn; lia].
Defined.

Import DemoInjective.

Lemma enc_pos_inj (q1 q2 k1 k2 : positive) :
  enc_pos q1 k1 = enc_pos q2 k2 -> q1 = q2 /\ k1 = k2.
Proof.
  revert q2; induction q1 as [q1 IH | q1 IH |]; intros [q2 | q2 |] E; cbn in E;
    try discriminate.
  - injection E as E. destruct (IH q2 E) as [-> ->]. split; reflexivity.
  - injection E as E. destruct (IH q2 E) as [-> ->]. split; reflexivity.
  - injection E as ->. split; reflexivity.
Qed.

Lemma pos_of_Z_inj (z1 z2 : Z) : pos_of_Z z1 = pos_of_Z z2 -> z1 = z2.
Proof. destruct z1, z2; cbn; intros E; try discriminate; congruence. Qed.

Lemma inj_poseidon_injective (l1 l2 : list Fr) : poseidon l1 = poseidon l2 -> l1 = l2.
Proof.
  cbn. unfold inj_poseidon. intros E. injection E as E. revert l2 E.
  induction l1 as [|z1 l1 IH]; intros [|z2 l2] E; cbn in E; try discriminate; [reflexivity|].
  injection E as E. apply enc_pos_inj in E as [Ez El].
  apply pos_of_Z_inj in Ez. apply IH in El. congruence.
Qed.

Lemma proof_binds_leaf_witness :
  exists t proof, new [1; 2; 3]%Z = Some t /\ generate_proof t 0 = Some proof /\
    verify_proof t [2%Z] proof = Some false /\ verify_proof t [1%Z] proof = Some true.
Proof.
  do 2 eexists. split; [reflexivity|]. split; [reflexivity|]. split.
  - apply (proof_binds_leaf inj_poseidon_injective [1; 2; 3]%Z _ 0 1%Z 2%Z); reflexivity.
  - apply (proof_binds_leaf inj_poseidon_injective [1; 2; 3]%Z _ 0 1%Z 1%Z); reflexivity.
Defined.

Lemma tampered_sibling_rejected_witness :
  exists t n p2, new [1; 2; 3]%Z = Some t /\ generate_proof t 0 = Some (n :: p2) /\
    (0 <> sibling n)%Z /\
    verify_proof t [1%Z] ({| sibling := 0%Z; sibling_side := sibling_side n |} :: p2) =
    Some false.
Proof.
  do 3 eexists. split; [reflexivity|]. split; [reflexivity|]. split; [discriminate|].
  eapply (tampered_sibling_rejected inj_poseidon_injective [1; 2; 3]%Z _ 0 1%Z _ [] _ _ 0%Z);
    try reflexivity. discriminate.
Defined.

End MerkleExtraFacts.

(** ** ShieldedKeyHierarchy: the getters and the key agreement *)
Module KeysExtraFacts.
Import Keys FieldCodecFacts KeysFacts.

Section Facts.
Context `{Primitives}.




End Facts.

Import Demo.



End KeysExtraFacts.

(** ** The [onboard], [buy], [trade], [redeem] and [info] commands *)
Module CommandsFacts.
Import JoinSplit Commands.
Local Open Scope Z_scope.

Lemma get_none (s : string) (n : nat) : (String.length s <= n)%nat -> String.get n s = None.
Proof.
  revert n; induction s as [|a s IH]; intros n Hn; destruct n; cbn in *;
    try reflexivity; try lia. apply IH. lia.
Qed.

Lemma str_prefix_short (s : string) (n : nat) :
  (String.length s < n)%nat -> str_prefix s n = None.
Proof.
  intros Hs. unfold str_prefix, is_char_boundary.
  destruct (n =? String.length s)%nat eqn:E; [apply Nat.eqb_eq in E; lia|].
  rewrite get_none by lia. reflexivity.
Qed.

(** [redeem], [trade] and [info] agree on maturity: once both commitments
    can be sliced, [redeem] is ready exactly when [trade] refuses bond A as
    matured and exactly when [info] reports [Matured]; before maturity
    [redeem] and [info] report the same number of whole days left,
    [(maturity_date - now) / 86400]. *)
Theorem maturity_checks_agree (now : Z) (bond other : StoredBond) :
  str_prefix (commitment bond) 12 <> None -> str_prefix (commitment other) 12 <> None ->
  (redeem now bond = Some RedeemReady <-> trade now bond other = Some TradeAMatured) /\
  (redeem now bond = Some RedeemReady <-> info_status now bond = Some Matured) /\
  (forall d, redeem now bond = Some (RedeemTooEarly d) <->
             info_status now bond = Some (DaysRemaining d)) /\
  (forall d, redeem now bond = Some (RedeemTooEarly d) ->
             now < maturity_date bond /\ d = (maturity_date bond - now) / 86400).
Proof.
  intros H1 H2.
  destruct (str_prefix (commitment bond) 12) as [s1|] eqn:E1; [|congruence].
  destruct (str_prefix (commitment other) 12) as [s2|] eqn:E2; [|congruence].
  unfold redeem, trade, info_status, u64_sub. rewrite E1, E2. rewrite !Z.geb_leb.
  destruct (Z.ltb_spec now (maturity_date bond));
    destruct (Z.leb_spec (maturity_date bond) now); try lia;
    destruct (Z.ltb_spec (maturity_date bond) now); try lia.
  all: repeat match goal with |- context [if ?b then _ else _] => destruct b end;
    repeat split; intros; try congruence;
    match goal with
    | Hd : Some (RedeemTooEarly _) = Some (RedeemTooEarly _) |- _ =>
        injection Hd as <-; split; [lia | reflexivity]
    end.
Qed.

(** A stored commitment shorter than 12 bytes makes [redeem] and [trade]
    panic at [&commitment[..12]], whichever side the bond is on, while
    [info] prints it whole and always reports a status. *)
Theorem short_commitment_panics (now : Z) (bond other : StoredBond) :
  (String.length (commitment bond) < 12)%nat ->
  redeem now bond = None /\ trade now bond other = None /\
  trade now other bond = None /\ info_status now bond <> None.
Proof.
  intros Hs. unfold redeem, trade. rewrite (str_prefix_short _ 12 Hs).
  split; [reflexivity|]. split; [reflexivity|].
  split; [destruct (str_prefix (commitment other) 12); reflexivity|].
  unfold info_status, u64_sub.
  rewrite Z.geb_leb. destruct (Z.leb_spec (maturity_date bond) now); [discriminate|].
  destruct (Z.ltb_spec (maturity_date bond) now); [lia | discriminate].
Qed.

(** A trade [trade] accepts has both bonds strictly before maturity, two
    different nullifiers and two commitments of at least 12 bytes; in
    particular a bond is never accepted in a trade against itself. *)
Theorem trade_valid_requirements :
  (forall (now : Z) (a b : StoredBond), trade now a b = Some TradeValid ->
     now < maturity_date a /\ now < maturity_date b /\ nullifier a <> nullifier b /\
     (12 <= String.length (commitment a))%nat /\ (12 <= String.length (commitment b))%nat) /\
  (forall (now : Z) (a : StoredBond), trade now a a <> Some TradeValid).
Proof.
  assert (Hv : forall (now : Z) (a b : StoredBond), trade now a b = Some TradeValid ->
     now < maturity_date a /\ now < maturity_date b /\ nullifier a <> nullifier b /\
     (12 <= String.length (commitment a))%nat /\ (12 <= String.length (commitment b))%nat).
  { intros now a b Ht.
    assert (La : (12 <= String.length (commitment a))%nat).
    { destruct (Nat.lt_ge_cases (String.length (commitment a)) 12) as [Hl|Hl]; [|exact Hl].
      unfold trade in Ht. rewrite (str_prefix_short _ 12 Hl) in Ht. discriminate. }
    assert (Lb : (12 <= String.length (commitment b))%nat).
    { destruct (Nat.lt_ge_cases (String.length (commitment b)) 12) as [Hl|Hl]; [|exact Hl].
      unfold trade in Ht. rewrite (str_prefix_short _ 12 Hl) in Ht.
      destruct (str_prefix (commitment a) 12); discriminate. }
    unfold trade in Ht.
    destruct (str_prefix (commitment a) 12); [|discriminate].
    destruct (str_prefix (commitment b) 12); [|discriminate].
    rewrite !Z.geb_leb in Ht.
    destruct (Z.leb_spec (maturity_date a) now); [discriminate|].
    destruct (Z.leb_spec (maturity_date b) now); [discriminate|].
    destruct (String.eqb_spec (nullifier a) (nullifier b)); [discriminate|].
    repeat split; assumption. }
  split; [exact Hv|].
  intros now a Ht. destruct (Hv now a a Ht) as (_ & _ & Hn & _). apply Hn. reflexivity.
Qed.

(** Every bond the issuer holds after [onboard] and any sequence of [buy]
    commands, each splitting the previous change bond, keeps asset id 1 and
    the maturity date of [onboard], has a positive value, and its value
    plus the total value bought is the [onboard] tranche of 100000000. *)
Theorem issuer_bond_invariant (sold : Z) (b : Bond) :
  issuer_bond sold b ->
  bond_value b + sold = global_value /\ 0 < bond_value b /\ 0 <= sold /\
  bond_asset_id b = 1 /\ bond_maturity_date b = onboard_maturity_date.
Proof.
  induction 1 as [salt | sold b buy_value change_salt b' Hu Hb IH Hc].
  - cbn. unfold global_value. repeat split; lia.
  - destruct IH as (Hv & Hpos & Hs & Ha & Hm). unfold is_u64 in Hu.
    unfold buy_change_bond, u64_sub in Hc. rewrite Z.geb_leb in Hc.
    destruct (Z.leb_spec (bond_value b) buy_value); [discriminate|].
    destruct (Z.ltb_spec (bond_value b) buy_value); [lia|].
    injection Hc as <-. cbn. repeat split; lia.
Qed.

Section Buy.
Context `{Primitives} {P : Type}.

(** [buy] from any issuer bond reachable from [onboard] uses exactly the
    dummy note [onboard] added to the tree (value 0, salt 0, the issuer as
    owner, asset 1, the [onboard] maturity), and the spent input note has
    the source bond's value and salt. *)
Theorem buy_dummy_is_onboard_dummy (sold : Z) (b : Bond) (buy_value : Z)
    (issuer_owner buyer_owner : Fr) (buyer_salt change_salt : Z) (r : Fr)
    (input_path dummy_path : P) (input_nullifier dummy_nullifier private_key : Fr)
    (w : JoinSplitWitness P) :
  issuer_bond sold b ->
  buy_joinsplit buy_value b issuer_owner buyer_owner buyer_salt change_salt r
    input_path dummy_path input_nullifier dummy_nullifier private_key = Some (inl w) ->
  fst (fst (input2 w)) = onboard_dummy_note issuer_owner /\
  cvalue (fst (fst (input1 w))) = bond_value b /\ csalt (fst (fst (input1 w))) = bond_salt b.
Proof.
  intros Hb Hw. destruct (issuer_bond_invariant sold b Hb) as (_ & _ & _ & Ha & Hm).
  unfold buy_joinsplit, build_joinsplit_witness, u64_sub in Hw.
  destruct (buy_value >=? bond_value b); [discriminate|].
  destruct (bond_value b <? buy_value); [discriminate|].
  match type of Hw with context [if ?c then _ else _] => destruct c end; [|discriminate].
  injection Hw as <-. cbn. unfold onboard_dummy_note. rewrite Ha, Hm.
  repeat split; reflexivity.
Qed.

(** [buy] with [buy_value = 0] passes the guard: it produces a zero-value
    buyer note and a change note worth the whole source bond.  A source
    bond of value 0 can never be split: every u64 [buy_value] is refused. *)
Theorem buy_zero_value (b : Bond) (issuer_owner buyer_owner : Fr) (buyer_salt change_salt : Z)
    (r : Fr) (input_path dummy_path : P) (input_nullifier dummy_nullifier private_key : Fr) :
  (0 < bond_value b ->
   exists w,
     buy_joinsplit 0 b issuer_owner buyer_owner buyer_salt change_salt r
       input_path dummy_path input_nullifier dummy_nullifier private_key = Some (inl w) /\
     cvalue (fst (output1 w)) = 0 /\ cvalue (fst (output2 w)) = bond_value b /\
     buy_change_bond 0 b change_salt =
       Some {| bond_value := bond_value b; bond_salt := change_salt;
               bond_asset_id := bond_asset_id b;
               bond_maturity_date := bond_maturity_date b |}) /\
  (bond_value b = 0 -> forall buy_value, 0 <= buy_value ->
   buy_joinsplit buy_value b issuer_owner buyer_owner buyer_salt change_salt r
     input_path dummy_path input_nullifier dummy_nullifier private_key = None /\
   buy_change_bond buy_value b change_salt = None).
Proof.
  split.
  - intros Hpos.
    unfold buy_joinsplit, buy_change_bond, build_joinsplit_witness, u64_sub.
    rewrite Z.geb_leb.
    destruct (Z.leb_spec (bond_value b) 0); [lia|].
    destruct (Z.ltb_spec (bond_value b) 0); [lia|].
    cbn [cvalue fst snd]. rewrite Z.sub_0_r.
    replace (bond_value b + 0 =? 0 + bond_value b) with true
      by (symmetry; apply Z.eqb_eq; lia).
    eexists. split; [reflexivity|]. cbn. repeat split; reflexivity.
  - intros H0 v Hv. unfold buy_joinsplit, buy_change_bond. rewrite Z.geb_leb, H0.
    destruct (Z.leb_spec 0 v); [split; reflexivity | lia].
Qed.

End Buy.

Lemma issuer_bond_invariant_witness :
  exists b, issuer_bond 30 b /\
    bond_value b + 30 = global_value /\ 0 < bond_value b /\ 0 <= 30 /\
    bond_asset_id b = 1 /\ bond_maturity_date b = onboard_maturity_date.
Proof.
  assert (Hb : issuer_bond (0 + 30)
                 {| bond_value := 99999970; bond_salt := 7; bond_asset_id := 1;
                    bond_maturity_date := onboard_maturity_date |}).
  { apply (IB_buy 0 (onboard_bond 5) 30 7); [unfold is_u64; lia | apply IB_onboard | reflexivity]. }
  eexists. split; [exact Hb | exact (issuer_bond_invariant _ _ Hb)].
Defined.

Import Demo.

Lemma buy_dummy_is_onboard_dummy_witness :
  exists w : JoinSplitWitness unit,
    buy_joinsplit 30 (onboard_bond 5) 11 12 13 14 0 tt tt 21 22 23 = Some (inl w) /\
    fst (fst (input2 w)) = onboard_dummy_note 11 /\
    cvalue (fst (fst (input1 w))) = global_value /\ csalt (fst (fst (input1 w))) = 5.
Proof.
  eexists. split; [reflexivity|].
  apply (buy_dummy_is_onboard_dummy 0 (onboard_bond 5) 30 11 12 13 14 0 tt tt 21 22 23);
    [apply IB_onboard | reflexivity].
Defined.

Lemma buy_zero_value_witness :
  (exists w : JoinSplitWitness unit,
     buy_joinsplit 0 (onboard_bond 5) 11 12 13 14 0 tt tt 21 22 23 = Some (inl w) /\
     cvalue (fst (output1 w)) = 0 /\ cvalue (fst (output2 w)) = global_value /\
     buy_change_bond 0 (onboard_bond 5) 14 =
       Some {| bond_value := global_value; bond_salt := 14; bond_asset_id := 1;
               bond_maturity_date := onboard_maturity_date |}) /\
  buy_joinsplit 3 {| bond_value := 0; bond_salt := 1; bond_asset_id := 1;
                     bond_maturity_date := 2 |} 11 12 13 14 0 tt tt 21 22 23 = None.
Proof.
  split.
  - apply (proj1 (buy_zero_value (onboard_bond 5) 11 12 13 14 0 tt tt 21 22 23)).
    cbn. unfold global_value. lia.
  - apply (proj2 (buy_zero_value {| bond_value := 0; bond_salt := 1; bond_asset_id := 1;
                                    bond_maturity_date := 2 |} 11 12 13 14 0 tt tt 21 22 23)
             eq_refl 3); lia.
Defined.

Lemma maturity_checks_agree_witness :
  let bond := {| commitment := "123456789012345"; nullifier := "42"; value := 10;
                 salt := 1; owner := "7"; asset_id := 1; maturity_date := 1000000;
                 created_at := "2025" |} in
  str_prefix (commitment bond) 12 <> None /\
  (redeem 100 bond = Some RedeemReady <-> trade 100 bond bond = Some TradeAMatured) /\
  redeem 100 bond = Some (RedeemTooEarly 11) /\
  info_status 100 bond = Some (DaysRemaining 11).
Proof.
  intros bond. split; [discriminate|].
  destruct (maturity_checks_agree 100 bond bond ltac:(discriminate) ltac:(discriminate))
    as (H1 & H2 & H3 & H4).
  split; [exact H1|]. split; [reflexivity|]. apply H3. reflexivity.
Defined.

Lemma short_commitment_panics_witness :
  let bond := {| commitment := "0x12"; nullifier := "42"; value := 10;
                 salt := 1; owner := "7"; asset_id := 1; maturity_date := 1000000;
                 created_at := "2025" |} in
  (String.length (commitment bond) < 12)%nat /\ redeem 5 bond = None /\
  info_status 5 bond <> None.
Proof.
  intros bond. split; [cbn; lia|].
  destruct (short_commitment_panics 5 bond bond ltac:(cbn; lia)) as (H1 & _ & _ & H4).
  split; assumption.
Defined.

Lemma trade_valid_requirements_witness :
  let a := {| commitment := "123456789012345"; nullifier := "42"; value := 10;
              salt := 1; owner := "7"; asset_id := 1; maturity_date := 1000000;
              created_at := "2025" |} in
  let b := {| commitment := "543210987654321"; nullifier := "43"; value := 20;
              salt := 2; owner := "8"; asset_id := 1; maturity_date := 2000000;
              created_at := "2025" |} in
  trade 100 a b = Some TradeValid /\ 100 < maturity_date a /\ nullifier a <> nullifier b.
Proof.
  intros a b. split; [reflexivity|].
  destruct (proj1 trade_valid_requirements 100 a b eq_refl) as (H1 & _ & H3 & _).
  split; assumption.
Defined.

End CommandsFacts.

(** ** Proof generation *)
Module ProverFacts.
Import Prover.
Local Open Scope string_scope.

(** [generate_proof] runs [nargo execute] and then, only when nargo exited
    successfully, [bb prove]; it returns [Ok("<dir>/target/proof")] exactly
    when both commands ran and exited successfully, and a failing exit
    status is reported as [Err] carrying the command's stderr. *)
Theorem generate_proof_spec (run : Command -> Output + string)
    (circuit_dir witness_name : string) :
  let nargo := nargo_execute circuit_dir witness_name in
  let bb := bb_prove circuit_dir witness_name in
  let res := generate_proof run circuit_dir witness_name in
  (fst res = [nargo] \/
   (fst res = [nargo; bb] /\ exists o, run nargo = inl o /\ status_success o = true)) /\
  (forall p, snd res = Ok p <->
     p = circuit_dir ++ "/target/proof" /\
     exists o1 o2, run nargo = inl o1 /\ status_success o1 = true /\
                   run bb = inl o2 /\ status_success o2 = true) /\
  (forall o, run nargo = inl o -> status_success o = false ->
     snd res = Err ("nargo execute failed: " ++ stderr o)) /\
  (forall o o2, run nargo = inl o -> status_success o = true ->
     run bb = inl o2 -> status_success o2 = false ->
     snd res = Err ("bb prove failed: " ++ stderr o2)).
Proof.
  intros nargo bb res. unfold res, generate_proof. fold nargo. fold bb.
  destruct (run nargo) as [o|e] eqn:E1.
  - destruct (status_success o) eqn:S1; cbn [negb].
    + destruct (run bb) as [o2|e2] eqn:E2.
      * destruct (status_success o2) eqn:S2; cbn [negb fst snd].
        -- split; [right; split; [reflexivity | exists o; split; [reflexivity | assumption]]|].
           split; [|split; intros; congruence].
           intros p. split.
           ++ intros Hp. injection Hp as <-. split; [reflexivity|].
              exists o, o2. repeat split; try reflexivity; assumption.
           ++ intros [-> _]. reflexivity.
        -- split; [right; split; [reflexivity | exists o; split; [reflexivity | assumption]]|].
           split; [|split; [intros; congruence|]].
           ++ intros p. split; [discriminate|].
              intros (_ & o1 & o3 & H1 & _ & H2 & H3). congruence.
           ++ intros o' o2' H1 _ H2 _. congruence.
      * cbn [fst snd].
        split; [right; split; [reflexivity | exists o; split; [reflexivity | assumption]]|].
        split; [|split; intros; congruence].
        intros p. split; [discriminate|]. intros (_ & o1 & o3 & _ & _ & H2 & _). congruence.
    + cbn [fst snd]. split; [left; reflexivity|].
      split; [|split].
      * intros p. split; [discriminate|]. intros (_ & o1 & o3 & H1 & H2 & _). congruence.
      * intros o' H1 _. congruence.
      * intros o' o2 H1 H2. congruence.
  - cbn [fst snd]. split; [left; reflexivity|].
    split; [|split; intros; congruence].
    intros p. split; [discriminate|]. intros (_ & o1 & _ & H1 & _). congruence.
Qed.

Lemma generate_proof_spec_witness :
  let run := fun c : Command =>
    if String.eqb (program c) "nargo"
    then inl {| status_success := false; stderr := "missing witness" |}
    else inl {| status_success := true; stderr := "none" |} in
  snd (generate_proof run "circuits" "w") = Err "nargo execute failed: missing witness" /\
  fst (generate_proof run "circuits" "w") = [nargo_execute "circuits" "w"].
Proof.
  intros run. split; [|reflexivity].
  apply (proj1 (proj2 (proj2 (generate_proof_spec run "circuits" "w")))
           {| status_success := false; stderr := "missing witness" |}); reflexivity.
Defined.

End ProverFacts.
